(** * A proof-of-work block chain: [blockchain.py]

    A shallow embedding of the two classes of [src/blockchain.py], [Block]
    and [Blockchain], together with the parts of the Python runtime they
    call: list indexing, [range], [str.startswith], [json.dumps] with
    [sort_keys=True], [str.encode] and [hashlib.sha256].

    Python objects are mutable; a method that mutates its argument is
    modelled by a function that returns the argument's new state.  A method
    that can raise returns an [outcome]; the unbounded loop of
    [proof_of_work] takes a bound on its number of iterations and reports
    [Timeout] when the bound is used up. *)

From Stdlib Require Import ZArith String Ascii DecimalString Permutation Sorted Lia.
From Stdlib Require DecimalZ DecimalPos.
From stdpp Require Import base list.

Set Warnings "-register-all".

Local Open Scope string_scope.
Local Open Scope Z_scope.

(** ** The Python runtime *)

Module Py.

(** The only exception this program can meet. *)
Inductive exn : Type :=
| IndexError.

(** What a call does: return a value, raise, or still be running when the
    iteration bound given to the model is used up. *)
Inductive outcome (A : Type) : Type :=
| Ret (a : A)
| Raise (e : exn)
| Timeout.

Arguments Ret {A} a.
Arguments Raise {A} e.
Arguments Timeout {A}.

Definition bind {A B : Type} (m : outcome A) (k : A -> outcome B) : outcome B :=
  match m with
  | Ret a => k a
  | Raise e => Raise e
  | Timeout => Timeout
  end.

(** [l[i]] for a Python list: negative indices count from the end, and an
    index outside [-len(l) .. len(l) - 1] raises [IndexError]. *)
Definition getitem {A : Type} (l : list A) (i : Z) : outcome A :=
  let n := Z.of_nat (length l) in
  let j := if i <? 0 then i + n else i in
  if (j <? 0) || (n <=? j) then Raise IndexError
  else match l !! Z.to_nat j with
       | Some x => Ret x
       | None => Raise IndexError
       end.

(** [len(l)]. *)
Definition len {A : Type} (l : list A) : Z := Z.of_nat (length l).

(** [range(a, b)], as the list of the integers it yields. *)
Definition range (a b : Z) : list Z :=
  map (fun k : nat => a + Z.of_nat k) (seq 0 (Z.to_nat (b - a))).

(** [s * n] for a string [s]: the empty string when [n <= 0]. *)
Fixpoint repeat_string (s : string) (n : nat) : string :=
  match n with
  | O => EmptyString
  | S n' => s ++ repeat_string s n'
  end.

Definition str_mul (s : string) (n : Z) : string := repeat_string s (Z.to_nat n).

(** [s.startswith(p)]. *)
Definition startswith (s p : string) : bool := String.prefix p s.

(** [repr] of an [int]: its decimal digits, with a minus sign below zero. *)
Definition int_repr (z : Z) : string := NilZero.string_of_int (Z.to_int z).

(** A [float] is given by the text [json.dumps] writes for it, which for a
    finite float is [float.__repr__], the shortest decimal text that reads
    back as the same float.  The program does no arithmetic on floats: it
    reads the clock and serialises what it read. *)
Record float : Type := Float { float_text : string }.

(** A [str] is a [string] of code points below 256. [s.encode()] is its
    UTF-8 encoding: one byte below 128, two bytes from 128 on. *)
Definition utf8_char (c : ascii) : list Z :=
  let n := Z.of_nat (nat_of_ascii c) in
  if n <? 128 then [n]
  else [Z.lor 0xC0 (Z.shiftr n 6); Z.lor 0x80 (Z.land n 0x3F)].

Fixpoint encode (s : string) : list Z :=
  match s with
  | EmptyString => []
  | String c s' => (utf8_char c ++ encode s')%list
  end.

End Py.

Export Py.

(** [outcome] is a monad; stdpp's notation [x ← m; k] sequences two calls. *)
#[global] Instance outcome_ret : MRet outcome := @Ret.
#[global] Instance outcome_bind : MBind outcome :=
  fun (A B : Type) (k : A -> outcome B) (m : outcome A) => bind m k.

(** ** [hashlib.sha256]

    SHA-256 as FIPS 180-4 defines it, on 32-bit words held in [Z] and
    reduced after every addition and left shift. *)

Module SHA256.

Definition mask32 : Z := 0xFFFFFFFF.
Definition add32 (x y : Z) : Z := Z.land (x + y) mask32.
Definition rotr (n x : Z) : Z :=
  Z.lor (Z.shiftr x n) (Z.land (Z.shiftl x (32 - n)) mask32).
Definition shr (n x : Z) : Z := Z.shiftr x n.
Definition not32 (x : Z) : Z := Z.lxor x mask32.

Definition Ch (x y z : Z) : Z := Z.lxor (Z.land x y) (Z.land (not32 x) z).
Definition Maj (x y z : Z) : Z :=
  Z.lxor (Z.lxor (Z.land x y) (Z.land x z)) (Z.land y z).
Definition Sigma0 (x : Z) : Z := Z.lxor (Z.lxor (rotr 2 x) (rotr 13 x)) (rotr 22 x).
Definition Sigma1 (x : Z) : Z := Z.lxor (Z.lxor (rotr 6 x) (rotr 11 x)) (rotr 25 x).
Definition sigma0 (x : Z) : Z := Z.lxor (Z.lxor (rotr 7 x) (rotr 18 x)) (shr 3 x).
Definition sigma1 (x : Z) : Z := Z.lxor (Z.lxor (rotr 17 x) (rotr 19 x)) (shr 10 x).

(** The round constants and the initial hash value are the first 32 bits of
    the fractional parts of the cube roots of the first 64 primes and of
    the square roots of the first 8. *)
Definition is_prime (n : nat) : bool :=
  forallb (fun d : nat => negb (Nat.eqb (n mod d) 0)) (seq 2 (n - 2)).

Definition primes (count : nat) : list Z :=
  map Z.of_nat (firstn count (filter is_prime (seq 2 310))).

(** The integer [k]-th root of [x], found bit by bit below bit [n]. *)
Fixpoint root_bits (k : Z) (n : nat) (x r : Z) : Z :=
  match n with
  | O => r
  | S n' =>
      let r' := r + 2 ^ Z.of_nat n' in
      if r' ^ k <=? x then root_bits k n' x r' else root_bits k n' x r
  end.

Definition root_frac32 (k p : Z) : Z :=
  Z.land (root_bits k 40 (p * 2 ^ (32 * k)) 0) mask32.

Definition K : list Z := Eval vm_compute in map (root_frac32 3) (primes 64).

Definition H0 : list Z := Eval vm_compute in map (root_frac32 2) (primes 8).

(** The [n] low bytes of [x], most significant first. *)
Definition be_bytes (n : nat) (x : Z) : list Z :=
  map (fun i : nat => Z.land (Z.shiftr x (8 * Z.of_nat i)) 0xFF) (rev (seq 0 n)).

(** Padding: a 1 bit, zeros up to 56 modulo 64 bytes, the length in bits. *)
Definition pad (msg : list Z) : list Z :=
  let n := Z.of_nat (length msg) in
  (msg ++ [0x80] ++ repeat 0 (Z.to_nat ((55 - n) mod 64)) ++ be_bytes 8 (8 * n))%list.

Fixpoint words (bs : list Z) : list Z :=
  match bs with
  | b0 :: b1 :: b2 :: b3 :: rest =>
      Z.lor (Z.shiftl b0 24) (Z.lor (Z.shiftl b1 16) (Z.lor (Z.shiftl b2 8) b3))
      :: words rest
  | _ => []
  end.

Record regs : Type :=
  Regs { ra : Z; rb : Z; rc : Z; rd : Z; re : Z; rf : Z; rg : Z; rh : Z }.

Definition round (k w : Z) (s : regs) : regs :=
  let t1 :=
    add32 (add32 (add32 (add32 (rh s) (Sigma1 (re s))) (Ch (re s) (rf s) (rg s))) k) w in
  let t2 := add32 (Sigma0 (ra s)) (Maj (ra s) (rb s) (rc s)) in
  Regs (add32 t1 t2) (ra s) (rb s) (rc s) (add32 (rd s) t1) (re s) (rf s) (rg s).

(** The message schedule is kept as the window [W t .. W (t+15)]. *)
Definition next_w (w : list Z) : Z :=
  add32 (add32 (add32 (sigma1 (nth 14 w 0)) (nth 9 w 0)) (sigma0 (nth 1 w 0)))
        (nth 0 w 0).

Fixpoint rounds (ks : list Z) (w : list Z) (s : regs) : regs :=
  match ks with
  | [] => s
  | k :: ks' => rounds ks' (tl w ++ [next_w w])%list (round k (nth 0 w 0) s)
  end.

Definition regs_of (h : list Z) : regs :=
  Regs (nth 0 h 0) (nth 1 h 0) (nth 2 h 0) (nth 3 h 0)
       (nth 4 h 0) (nth 5 h 0) (nth 6 h 0) (nth 7 h 0).

Definition compress (h : list Z) (w : list Z) : list Z :=
  let s := rounds K w (regs_of h) in
  [ add32 (nth 0 h 0) (ra s); add32 (nth 1 h 0) (rb s);
    add32 (nth 2 h 0) (rc s); add32 (nth 3 h 0) (rd s);
    add32 (nth 4 h 0) (re s); add32 (nth 5 h 0) (rf s);
    add32 (nth 6 h 0) (rg s); add32 (nth 7 h 0) (rh s) ].

Fixpoint blocks (n : nat) (h : list Z) (ws : list Z) : list Z :=
  match n with
  | O => h
  | S n' =>
      match ws with
      | [] => h
      | _ => blocks n' (compress h (firstn 16 ws)) (skipn 16 ws)
      end
  end.

Definition digest (msg : list Z) : list Z :=
  let ws := words (pad msg) in
  blocks (length ws) H0 ws.

Definition hex_digit (d : Z) : ascii :=
  if d <? 10 then ascii_of_nat (Z.to_nat (48 + d))
  else ascii_of_nat (Z.to_nat (87 + d)).

Fixpoint hex_of_word (n : nat) (x : Z) (acc : string) : string :=
  match n with
  | O => acc
  | S n' => hex_of_word n' (Z.shiftr x 4) (String (hex_digit (Z.land x 0xF)) acc)
  end.

(** [hashlib.sha256(msg).hexdigest()]: 64 lower-case hexadecimal digits. *)
Definition hexdigest (msg : list Z) : string :=
  fold_right (fun w acc => hex_of_word 8 w acc) EmptyString (digest msg).

End SHA256.

(** ** [json.dumps(obj, sort_keys=True)]

    The payload of a block is JSON data: [None], a [bool], an [int], a
    [float], a [str], a list, or a [dict] with [str] keys.  A [dict] keeps
    its items in insertion order, so it is an association list whose keys
    are pairwise distinct ([wf_json]). *)

Module Json.

Inductive json : Type :=
| JNull
| JBool (b : bool)
| JInt (z : Z)
| JFloat (f : float)
| JString (s : string)
| JList (l : list json)
| JDict (items : list (string * json)).

Definition dquote : string := String (ascii_of_nat 34) EmptyString.

Definition hex2 (n : Z) : string :=
  String (SHA256.hex_digit (Z.shiftr n 4))
    (String (SHA256.hex_digit (Z.land n 0xF)) EmptyString).

(** One character of a string literal, with [ensure_ascii=True]: the quote,
    the backslash and five control characters have a short escape, what is
    left outside [' ' .. '~'] is written as a four-digit [\u] escape. *)
Definition escape_char (c : ascii) : string :=
  let n := Z.of_nat (nat_of_ascii c) in
  if n =? 34 then "\" ++ dquote
  else if n =? 92 then "\\"
  else if n =? 10 then "\n"
  else if n =? 13 then "\r"
  else if n =? 9 then "\t"
  else if n =? 12 then "\f"
  else if n =? 8 then "\b"
  else if (32 <=? n) && (n <=? 126) then String c EmptyString
  else "\u00" ++ hex2 n.

Fixpoint escape (s : string) : string :=
  match s with
  | EmptyString => EmptyString
  | String c s' => escape_char c ++ escape s'
  end.

Definition encode_basestring_ascii (s : string) : string :=
  dquote ++ escape s ++ dquote.

(** [sorted] on the items of a [dict]: keys are distinct, so the order of
    the pairs is the order of their keys, code point by code point.  The
    sort is stable, as Python's is. *)
Fixpoint insert_item {V : Type} (x : string * V) (l : list (string * V))
  : list (string * V) :=
  match l with
  | [] => [x]
  | y :: l' => if String.leb x.1 y.1 then x :: l else y :: insert_item x l'
  end.

Definition sorted {V : Type} (l : list (string * V)) : list (string * V) :=
  fold_right insert_item [] l.

(** The order [sorted] puts the items in. *)
Definition key_le {V : Type} (x y : string * V) : Prop := String.leb x.1 y.1 = true.

Definition dumps_item (kv : string * string) : string :=
  encode_basestring_ascii kv.1 ++ ": " ++ kv.2.

(** The encoder sorts the items of a [dict] and then writes each value;
    here each value is written first and the written items are sorted,
    which lets the recursion stay structural.  The keys, and so the order,
    are the same ([sorted_map_values]). *)
Fixpoint dumps (v : json) : string :=
  match v with
  | JNull => "null"
  | JBool true => "true"
  | JBool false => "false"
  | JInt z => int_repr z
  | JFloat f => float_text f
  | JString s => encode_basestring_ascii s
  | JList l => "[" ++ String.concat ", " (map dumps l) ++ "]"
  | JDict items =>
      "{" ++ String.concat ", "
               (map dumps_item (sorted (map (fun kv => (kv.1, dumps kv.2)) items)))
          ++ "}"
  end.

(** Keys of every [dict] inside a value are pairwise distinct. *)
Fixpoint wf_json (v : json) : Prop :=
  match v with
  | JList l => fold_right (fun x acc => wf_json x /\ acc) True l
  | JDict items =>
      NoDup (map fst items)
      /\ fold_right (fun kv acc => wf_json kv.2 /\ acc) True items
  | _ => True
  end.

(** Two values equal as mappings: the same scalar, lists equal element by
    element, and [dict]s that bind the same keys to equal values, in any
    order of insertion.  An [int], a [float] and a [bool] are different
    values here, as [json.dumps] writes them differently. *)
Inductive json_equiv : json -> json -> Prop :=
| JE_null : json_equiv JNull JNull
| JE_bool b : json_equiv (JBool b) (JBool b)
| JE_int z : json_equiv (JInt z) (JInt z)
| JE_float f : json_equiv (JFloat f) (JFloat f)
| JE_string s : json_equiv (JString s) (JString s)
| JE_list l l' :
    Forall2 json_equiv l l' -> json_equiv (JList l) (JList l')
| JE_dict items reordered items' :
    Permutation items reordered ->
    Forall2 (fun kv kv' => kv.1 = kv'.1 /\ json_equiv kv.2 kv'.2) reordered items' ->
    json_equiv (JDict items) (JDict items').

End Json.

Export Json.

(** ** [class Block] *)

Record Block : Type := mkBlock {
  index : Z;
  timestamp : float;
  data : json;
  previous_hash : string;
  nonce : Z;
  hash : string
}.

Definition set_nonce (n : Z) (b : Block) : Block :=
  mkBlock (index b) (timestamp b) (data b) (previous_hash b) n (hash b).

Definition set_hash (h : string) (b : Block) : Block :=
  mkBlock (index b) (timestamp b) (data b) (previous_hash b) (nonce b) h.

Definition set_data (d : json) (b : Block) : Block :=
  mkBlock (index b) (timestamp b) d (previous_hash b) (nonce b) (hash b).

(** The dictionary [compute_hash] builds, in the order it lists the keys. *)
Definition block_dict (b : Block) : json :=
  JDict [ ("index", JInt (index b));
          ("timestamp", JFloat (timestamp b));
          ("data", data b);
          ("previous_hash", JString (previous_hash b));
          ("nonce", JInt (nonce b)) ].

Definition block_string (b : Block) : list Z := encode (dumps (block_dict b)).

(** [Block.compute_hash]. *)
Definition compute_hash (b : Block) : string :=
  SHA256.hexdigest (block_string b).

(** [Block.__init__]: [now] is what [time.time()] returns at the call. *)
Definition Block_init (now : float) (index : Z) (data : json) (previous_hash : string)
  : Block :=
  let self := mkBlock index now data previous_hash 0 EmptyString in
  set_hash (compute_hash self) self.

(** ** [class Blockchain] *)

Record Blockchain : Type := mkBlockchain {
  chain : list Block;
  difficulty : Z
}.

(** The class attribute [difficulty = 4], which every method reads through
    [self]. *)
Definition Blockchain_difficulty : Z := 4.

Definition set_chain (c : list Block) (self : Blockchain) : Blockchain :=
  mkBlockchain c (difficulty self).

(** Assigning [difficulty], as a test does to mine faster. *)
Definition set_difficulty (d : Z) (self : Blockchain) : Blockchain :=
  mkBlockchain (chain self) d.

Definition genesis_data : json :=
  JDict [ ("message", JString "Genesis block") ].

(** [Blockchain.create_genesis_block]. *)
Definition create_genesis_block (now : float) (self : Blockchain) : Blockchain :=
  let genesis_block := Block_init now 0 genesis_data "0" in
  set_chain (chain self ++ [genesis_block])%list self.

(** [Blockchain.__init__]. *)
Definition Blockchain_init (now : float) : Blockchain :=
  create_genesis_block now (mkBlockchain [] Blockchain_difficulty).

(** [Blockchain.last_block]: [self.chain[-1]]. *)
Definition last_block (self : Blockchain) : outcome Block :=
  getitem (chain self) (-1).

(** [Blockchain.proof_of_work].  [fuel] bounds the number of times the body
    of the [while] loop runs; the condition is tested before the body, so
    no iteration is needed when the hash already has the prefix.  The
    result is the block as the loop leaves it and the value returned. *)
Fixpoint pow_loop (fuel : nat) (prefix : string) (block : Block)
  : outcome (Block * string) :=
  if negb (startswith (hash block) prefix) then
    match fuel with
    | O => Timeout
    | S fuel' =>
        let block := set_nonce (nonce block + 1) block in
        let block := set_hash (compute_hash block) block in
        pow_loop fuel' prefix block
    end
  else Ret (block, hash block).

Definition proof_of_work (fuel : nat) (self : Blockchain) (block : Block)
  : outcome (Block * string) :=
  let prefix := str_mul "0" (difficulty self) in
  pow_loop fuel prefix block.

(** [Blockchain.add_block]: the chain after the call and the block
    returned. *)
Definition add_block (fuel : nat) (now : float) (data : json) (self : Blockchain)
  : outcome (Blockchain * Block) :=
  tail ← last_block self;
  let new_block := Block_init now (len (chain self)) data (hash tail) in
  sealed ← proof_of_work fuel self new_block;
  let new_block := sealed.1 in
  Ret (set_chain (chain self ++ [new_block])%list self, new_block).

(** [Blockchain.is_valid]: the body of the [for] loop on the indices that
    are left. *)
Fixpoint is_valid_loop (self : Blockchain) (prefix : string) (indices : list Z)
  : outcome bool :=
  match indices with
  | [] => Ret true
  | i :: rest =>
      current ← getitem (chain self) i;
      previous ← getitem (chain self) (i - 1);
      if negb (String.eqb (hash current) (compute_hash current)) then Ret false
      else if negb (String.eqb (previous_hash current) (hash previous)) then Ret false
      else if negb (startswith (hash current) prefix) then Ret false
      else is_valid_loop self prefix rest
  end.

Definition is_valid (self : Blockchain) : outcome bool :=
  let prefix := str_mul "0" (difficulty self) in
  is_valid_loop self prefix (range 1 (len (chain self))).

(** ** What the checks of [is_valid] say *)

(** The three tests [is_valid] makes on a block and the one before it. *)
Definition block_checks (prefix : string) (previous current : Block) : bool :=
  String.eqb (hash current) (compute_hash current)
  && String.eqb (previous_hash current) (hash previous)
  && startswith (hash current) prefix.

(** The same tests along a list of blocks that follows [previous]. *)
Fixpoint links_ok (prefix : string) (previous : Block) (rest : list Block) : bool :=
  match rest with
  | [] => true
  | current :: rest' =>
      block_checks prefix previous current && links_ok prefix current rest'
  end.

Definition chain_ok (prefix : string) (blocks : list Block) : bool :=
  match blocks with
  | [] => true
  | genesis :: rest => links_ok prefix genesis rest
  end.

(** The block [proof_of_work] holds after one more turn of its loop. *)
Definition pow_step (block : Block) : Block :=
  let block := set_nonce (nonce block + 1) block in
  set_hash (compute_hash block) block.

(** The text [compute_hash] hashes, cut around the payload: what is written
    before the payload, and what is written after it. *)
Definition block_text_head : string := "{" ++ dquote ++ "data" ++ dquote ++ ": ".

Definition block_text_tail (b : Block) : string :=
  ", " ++ dquote ++ "index" ++ dquote ++ ": " ++ int_repr (index b)
  ++ ", " ++ dquote ++ "nonce" ++ dquote ++ ": " ++ int_repr (nonce b)
  ++ ", " ++ dquote ++ "previous_hash" ++ dquote ++ ": "
  ++ dquote ++ escape (previous_hash b) ++ dquote
  ++ ", " ++ dquote ++ "timestamp" ++ dquote ++ ": " ++ float_text (timestamp b)
  ++ "}".

(** Two different messages with the same SHA-256 digest. *)
Definition sha256_collision (m m' : list Z) : Prop :=
  m <> m' /\ SHA256.hexdigest m = SHA256.hexdigest m'.

(** The block [add_block] builds before it mines it. *)
Definition candidate (now : float) (payload : json) (self : Blockchain) (tail : Block)
  : Block :=
  Block_init now (len (chain self)) payload (hash tail).

(** Chains a program can build: a new [Blockchain], its [difficulty] set
    once, then calls of [add_block] that returned. *)
Inductive constructed : Blockchain -> Prop :=
| constructed_init now d :
    constructed (set_difficulty d (Blockchain_init now))
| constructed_add self fuel now payload self' block :
    constructed self ->
    add_block fuel now payload self = Ret (self', block) ->
    constructed self'.

(** Reads one character back from its UTF-8 bytes. *)
Definition utf8_decode_char (bs : list Z) : option (ascii * list Z) :=
  match bs with
  | [] => None
  | b0 :: bs' =>
      if b0 <? 128 then Some (ascii_of_nat (Z.to_nat b0), bs')
      else match bs' with
           | [] => None
           | b1 :: bs'' =>
               Some (ascii_of_nat
                       (Z.to_nat (Z.lor (Z.shiftl (Z.land b0 0x1F) 6) (Z.land b1 0x3F))),
                     bs'')
           end
  end.

(** Assigning [previous_hash] on a block from outside. *)
Definition set_previous_hash (ph : string) (b : Block) : Block :=
  mkBlock (index b) (timestamp b) (data b) ph (nonce b) (hash b).

(** Every character of a string passes a test. *)
Fixpoint all_chars (p : ascii -> bool) (s : string) : bool :=
  match s with
  | EmptyString => true
  | String c s' => p c && all_chars p s'
  end.

(** A lower-case hexadecimal digit, ['0' .. '9'] or ['a' .. 'f']. *)
Definition is_hex_digit (c : ascii) : bool :=
  let n := Z.of_nat (nat_of_ascii c) in
  ((48 <=? n) && (n <=? 57)) || ((97 <=? n) && (n <=? 102)).

(** Assigning [index] or [timestamp] on a block from outside. *)
Definition set_index (i : Z) (b : Block) : Block :=
  mkBlock i (timestamp b) (data b) (previous_hash b) (nonce b) (hash b).

Definition set_timestamp (t : float) (b : Block) : Block :=
  mkBlock (index b) t (data b) (previous_hash b) (nonce b) (hash b).

(** [int(s)] on the text of a decimal integer. *)
Definition int_parse (s : string) : option Z :=
  option_map Z.of_int (NilZero.int_of_string s).

(** A character of ASCII. *)
Definition is_ascii7 (c : ascii) : bool := Z.of_nat (nat_of_ascii c) <? 128.

(** The text of every [float] inside a value is ASCII, as the text of a
    Python [float] is. *)
Fixpoint ascii_floats (v : json) : Prop :=
  match v with
  | JFloat f => all_chars is_ascii7 (float_text f) = true
  | JList l => fold_right (fun x acc => ascii_floats x /\ acc) True l
  | JDict items => fold_right (fun kv acc => ascii_floats kv.2 /\ acc) True items
  | _ => True
  end.

(** ** A run of the program

    The script at the end of the source: a new chain, two payments added,
    then the amount of the first payment changed in place.  The clock
    values are chosen so that mining at the difficulty of the source, 4,
    ends after two turns for the first payment and needs none for the
    second. *)

Module Demo.

Definition alice_to_bob : json :=
  JDict [ ("from", JString "Alice"); ("to", JString "Bob"); ("amount", JInt 10) ].

Definition bob_to_charlie : json :=
  JDict [ ("from", JString "Bob"); ("to", JString "Charlie"); ("amount", JInt 5) ].

Definition alice_to_bob_999 : json :=
  JDict [ ("from", JString "Alice"); ("to", JString "Bob"); ("amount", JInt 999) ].

Definition t0 : float := Float "1700000000.5".
Definition t1 : float := Float "1700000007.006".
Definition t2 : float := Float "1700000015.628".

Definition genesis : Block :=
  mkBlock 0 t0 genesis_data "0" 0
    "d94eb11ff9c061b43b69df19d6c6359e1b5fc90c812e864360530d1d7278956e".
Definition chain0 : Blockchain := mkBlockchain [genesis] 4.

(** The first payment as [add_block] builds it, before mining. *)
Definition candidate1 : Block :=
  mkBlock 1 t1 alice_to_bob
    "d94eb11ff9c061b43b69df19d6c6359e1b5fc90c812e864360530d1d7278956e" 0
    "3c758ca4727bf35932c684d1b599b240ae79b8e53200c0cdde2d97240c2f57f2".

Definition block1 : Block :=
  mkBlock 1 t1 alice_to_bob
    "d94eb11ff9c061b43b69df19d6c6359e1b5fc90c812e864360530d1d7278956e" 2
    "00007374d356ab7cf9a9930d93333c1d83a4f71bdc2effde965b3cc5581abb5f".
Definition chain1 : Blockchain := mkBlockchain [genesis; block1] 4.

Definition block2 : Block :=
  mkBlock 2 t2 bob_to_charlie
    "00007374d356ab7cf9a9930d93333c1d83a4f71bdc2effde965b3cc5581abb5f" 0
    "000025793134ad7093740dd8fef2e5549b1a390293286a61e573f4fcd8d977c1".
Definition chain2 : Blockchain := mkBlockchain [genesis; block1; block2] 4.

(** [blockchain.chain[1].data["amount"] = 999]. *)
Definition tampered : Blockchain :=
  set_chain (<[1%nat := set_data alice_to_bob_999 block1]> (chain chain2)) chain2.

(** A first block whose payload and nonce were changed and whose stored
    hash was left as it was. *)
Definition forged_genesis : Block :=
  set_nonce 7 (set_data (JDict [ ("message", JString "Forged") ]) genesis).

(** A block whose stored hash is 64 zeros, which is not the hash of its
    fields. *)
Definition zero_hash_block : Block :=
  set_hash "0000000000000000000000000000000000000000000000000000000000000000"
    (set_nonce 0 block1).

(** The first payment with its keys inserted in another order. *)
Definition bob_from_alice : json :=
  JDict [ ("amount", JInt 10); ("to", JString "Bob"); ("from", JString "Alice") ].

End Demo.

(** ** The script

    What the file does when it is run: it builds a chain, adds two
    payments, lists the blocks, prints what [is_valid] says, changes the
    amount of the first payment in place and prints what [is_valid] says
    then.  The clock is read once for each block. *)

Module Script.

(** [d[key] = value] on the items of a [dict]: the value of a key that is
    there is replaced where it stands, a new key goes to the end. *)
Fixpoint dict_setitem (key : string) (value : json) (items : list (string * json))
  : list (string * json) :=
  match items with
  | [] => [(key, value)]
  | kv :: rest =>
      if String.eqb kv.1 key then (kv.1, value) :: rest
      else kv :: dict_setitem key value rest
  end.

(** The script can fail in one more way than the classes: subscript
    assignment with a [str] key on a value that is not a [dict] is a
    [TypeError]. *)
Inductive error : Type :=
| Exn (e : exn)
| TypeError.

Inductive run (A : Type) : Type :=
| Finished (a : A)
| Crashed (e : error)
| Mining.

Arguments Finished {A} a.
Arguments Crashed {A} e.
Arguments Mining {A}.

Definition call {A : Type} (m : outcome A) : run A :=
  match m with
  | Ret a => Finished a
  | Raise e => Crashed (Exn e)
  | Timeout => Mining
  end.

#[global] Instance run_bind : MBind run :=
  fun (A B : Type) (k : A -> run B) (m : run A) =>
    match m with
    | Finished a => k a
    | Crashed e => Crashed e
    | Mining => Mining
    end.

(** [target[key] = value] for a [str] key. *)
Definition setitem (target : json) (key : string) (value : json) : run json :=
  match target with
  | JDict items => Finished (JDict (dict_setitem key value items))
  | _ => Crashed TypeError
  end.

(** What the script prints, without the wording: the blocks it lists, and
    the two answers of [is_valid]. *)
Record report : Type := mkReport {
  listed : list Block;
  valid_before : bool;
  valid_after : bool
}.

(** The script; [fuel] bounds each of the two minings, and [t0], [t1] and
    [t2] are the three readings of the clock. *)
Definition main (fuel : nat) (t0 t1 t2 : float) : run report :=
  let blockchain := Blockchain_init t0 in
  added ← call (add_block fuel t1
                  (JDict [ ("from", JString "Alice"); ("to", JString "Bob");
                           ("amount", JInt 10) ]) blockchain);
  let blockchain := added.1 in
  added ← call (add_block fuel t2
                  (JDict [ ("from", JString "Bob"); ("to", JString "Charlie");
                           ("amount", JInt 5) ]) blockchain);
  let blockchain := added.1 in
  let listing := chain blockchain in
  before ← call (is_valid blockchain);
  block ← call (getitem (chain blockchain) 1);
  changed ← setitem (data block) "amount" (JInt 999);
  let blockchain :=
    set_chain (<[1%nat := set_data changed block]> (chain blockchain)) blockchain in
  after ← call (is_valid blockchain);
  Finished (mkReport listing before after).

End Script.

(** ** More payloads than hashes

    A hash is one of [16 ^ 64] strings, and there are more payloads than
    that.  The blocks below differ in their payload only, an integer. *)

(** The value of a lower-case hexadecimal digit, and of a string of them. *)
Definition hex_val (c : ascii) : Z :=
  let n := Z.of_nat (nat_of_ascii c) in
  if n <? 58 then n - 48 else n - 87.

Fixpoint hex_value (s : string) : Z :=
  match s with
  | EmptyString => 0
  | String c s' => hex_val c * 16 ^ Z.of_nat (String.length s') + hex_value s'
  end.

(** The block [add_block] builds on [Demo.chain0] for the payload [n]. *)
Definition numbered_block (n : Z) : Block :=
  Block_init Demo.t1 1 (JInt n) (hash Demo.genesis).

(** [Demo.chain0] with that block added, when nothing is asked of its
    hash: [difficulty] is 0. *)
Definition numbered_chain (n : Z) : Blockchain :=
  mkBlockchain [Demo.genesis; numbered_block n] 0.

(** ** The runtime *)

(** [hashlib.sha256] on the test vectors of FIPS 180-4: the empty message,
    one block, and a message whose padding needs a second block. *)
Example sha256_empty :
  SHA256.hexdigest (encode "")
  = "e3b0c44298fc1c149afbf4c8996fb92427ae41e4649b934ca495991b7852b855".
Proof. vm_compute. reflexivity. Qed.

Example sha256_abc :
  SHA256.hexdigest (encode "abc")
  = "ba7816bf8f01cfea414140de5dae2223b00361a396177a9cb410ff61f20015ad".
Proof. vm_compute. reflexivity. Qed.

Example sha256_two_blocks :
  SHA256.hexdigest
    (encode "abcdbcdecdefdefgefghfghighijhijkijkljklmklmnlmnomnopnopq")
  = "248d6a61d20638b8e5c026930c3e6039a33ce45964ff2167f6ecedd419db06c1".
Proof. vm_compute. reflexivity. Qed.

(** [json.dumps] on a value with every kind of data in it. *)
Example dumps_all_kinds :
  dumps (JDict [ ("b", JList [JNull; JBool true; JBool false; JInt (-3);
                              JFloat (Float "1.5"); JString "x\y"; JList [];
                              JDict []]);
                 ("a", JDict [ ("z", JInt 1); ("y", JInt 2) ]) ])
  = "{" ++ dquote ++ "a" ++ dquote ++ ": {"
        ++ dquote ++ "y" ++ dquote ++ ": 2, "
        ++ dquote ++ "z" ++ dquote ++ ": 1}, "
        ++ dquote ++ "b" ++ dquote
        ++ ": [null, true, false, -3, 1.5, " ++ dquote ++ "x\\y" ++ dquote
        ++ ", [], {}]}".
Proof. vm_compute. reflexivity. Qed.

Arguments compute_hash : simpl never.
Arguments SHA256.hexdigest : simpl never.

Section Runtime.

Context {A : Type}.
Implicit Types (l : list A) (x : A).

Lemma getitem_nat l (n : nat) x :
  l !! n = Some x -> getitem l (Z.of_nat n) = Ret x.
Proof.
  intros Hn. pose proof (lookup_lt_Some _ _ _ Hn) as Hlt.
  unfold getitem.
  destruct (Z.ltb_spec (Z.of_nat n) 0) as [?|_]; [lia|].
  destruct (Z.ltb_spec (Z.of_nat n) 0) as [?|_]; [lia|].
  destruct (Z.leb_spec (Z.of_nat (length l)) (Z.of_nat n)) as [?|_]; [lia|].
  cbn. rewrite Nat2Z.id, Hn. reflexivity.
Qed.

Lemma getitem_nil (i : Z) : getitem (@nil A) i = Raise IndexError.
Proof.
  unfold getitem.
  destruct (_ || _); [reflexivity|].
  rewrite lookup_nil. reflexivity.
Qed.

Lemma getitem_last l x : getitem (l ++ [x])%list (-1) = Ret x.
Proof.
  unfold getitem. rewrite length_app. cbn [length].
  change (-1 <? 0) with true. cbv iota.
  set (j := -1 + Z.of_nat (length l + 1)).
  assert (Hj : j = Z.of_nat (length l)) by (unfold j; lia).
  rewrite Hj.
  destruct (Z.ltb_spec (Z.of_nat (length l)) 0) as [?|_]; [lia|].
  destruct (Z.leb_spec (Z.of_nat (length l + 1)) (Z.of_nat (length l))) as [?|_]; [lia|].
  cbn. rewrite Nat2Z.id, lookup_app_r by lia.
  rewrite Nat.sub_diag. reflexivity.
Qed.

End Runtime.

Lemma range_nil (a b : Z) : b <= a -> range a b = [].
Proof.
  intros H. unfold range. replace (Z.to_nat (b - a)) with 0%nat by lia. reflexivity.
Qed.

Lemma range_cons (a b : Z) : a < b -> range a b = a :: range (a + 1) b.
Proof.
  intros H. unfold range.
  replace (Z.to_nat (b - a)) with (S (Z.to_nat (b - (a + 1)))) by lia.
  cbn [seq map]. f_equal; [lia|].
  rewrite <- seq_shift, map_map. apply map_ext. intros k. lia.
Qed.

(** ** [is_valid] *)

Lemma len_app_cons (pre : list Block) (b : Block) (rest : list Block) :
  len (pre ++ b :: rest)%list = len pre + 1 + len rest.
Proof. unfold len. rewrite length_app. cbn [length]. lia. Qed.

Lemma lookup_middle (pre : list Block) (b : Block) (rest : list Block) :
  (pre ++ b :: rest)%list !! length pre = Some b.
Proof. rewrite lookup_app_r by lia. rewrite Nat.sub_diag. reflexivity. Qed.

(** The loop, started at the index after a block [previous], makes the
    checks of [links_ok] on what follows it, and never raises. *)
Lemma is_valid_loop_links (d : Z) (prefix : string) (rest : list Block) :
  forall (pre : list Block) (previous : Block),
    is_valid_loop (mkBlockchain (pre ++ previous :: rest)%list d) prefix
      (range (len pre + 1) (len (pre ++ previous :: rest)%list))
    = Ret (links_ok prefix previous rest).
Proof.
  induction rest as [|current rest' IH]; intros pre previous.
  - rewrite range_nil by (rewrite len_app_cons; unfold len; cbn; lia).
    reflexivity.
  - rewrite range_cons by (rewrite len_app_cons; unfold len; cbn [length]; lia).
    cbn [is_valid_loop chain].
    assert (Hcur : getitem (pre ++ previous :: current :: rest')%list (len pre + 1)
                   = Ret current).
    { replace (len pre + 1) with (Z.of_nat (length (pre ++ [previous])%list))
        by (rewrite length_app; unfold len; cbn [length]; lia).
      apply getitem_nat.
      replace (pre ++ previous :: current :: rest')%list
        with ((pre ++ [previous]) ++ current :: rest')%list
        by (rewrite <- app_assoc; reflexivity).
      apply lookup_middle. }
    assert (Hprev : getitem (pre ++ previous :: current :: rest')%list (len pre + 1 - 1)
                    = Ret previous).
    { replace (len pre + 1 - 1) with (Z.of_nat (length pre)) by (unfold len; lia).
      apply getitem_nat, lookup_middle. }
    rewrite Hcur, Hprev. cbn [mbind outcome_bind bind links_ok].
    unfold block_checks.
    destruct (String.eqb (hash current) (compute_hash current)); [|reflexivity].
    destruct (String.eqb (previous_hash current) (hash previous)); [|reflexivity].
    destruct (startswith (hash current) prefix); [|reflexivity].
    cbn [negb andb].
    specialize (IH (pre ++ [previous])%list current).
    replace ((pre ++ [previous]) ++ current :: rest')%list
      with (pre ++ previous :: current :: rest')%list in IH
      by (rewrite <- app_assoc; reflexivity).
    replace (len (pre ++ [previous])%list + 1) with (len pre + 1 + 1) in IH
      by (unfold len; rewrite length_app; cbn [length]; lia).
    exact IH.
Qed.

(** [is_valid] returns, and what it returns is [chain_ok]. *)
Lemma is_valid_chain_ok (self : Blockchain) :
  is_valid self = Ret (chain_ok (str_mul "0" (difficulty self)) (chain self)).
Proof.
  destruct self as [blocks d]. unfold is_valid. cbn [chain difficulty].
  destruct blocks as [|genesis rest].
  - reflexivity.
  - exact (is_valid_loop_links d _ rest [] genesis).
Qed.

Lemma block_checks_true (prefix : string) (previous current : Block) :
  block_checks prefix previous current = true <->
  hash current = compute_hash current
  /\ previous_hash current = hash previous
  /\ startswith (hash current) prefix = true.
Proof.
  unfold block_checks. rewrite !andb_true_iff, !String.eqb_eq. tauto.
Qed.

(** [links_ok] in terms of positions: every block after the first passes
    the checks against the block before it. *)
Lemma links_ok_lookup (prefix : string) (rest : list Block) :
  forall previous : Block,
    links_ok prefix previous rest = true <->
    forall (i : nat) (p c : Block),
      (previous :: rest) !! i = Some p ->
      (previous :: rest) !! S i = Some c ->
      block_checks prefix p c = true.
Proof.
  induction rest as [|current rest' IH]; intros previous; cbn [links_ok].
  - split; [|reflexivity].
    intros _ i p c _ Hc. destruct i; discriminate Hc.
  - rewrite andb_true_iff, IH. split.
    + intros [Hhead Htail] i p c Hp Hc.
      destruct i as [|i].
      * cbn in Hp, Hc. congruence.
      * exact (Htail i p c Hp Hc).
    + intros H. split.
      * exact (H 0%nat previous current eq_refl eq_refl).
      * intros i p c Hp Hc. exact (H (S i) p c Hp Hc).
Qed.

Lemma chain_ok_lookup (prefix : string) (blocks : list Block) :
  chain_ok prefix blocks = true <->
  forall (i : nat) (current previous : Block),
    (1 <= i)%nat ->
    blocks !! i = Some current ->
    blocks !! (i - 1)%nat = Some previous ->
    block_checks prefix previous current = true.
Proof.
  destruct blocks as [|genesis rest]; cbn [chain_ok].
  - split; [|reflexivity]. intros _ i c p _ Hc. discriminate Hc.
  - rewrite links_ok_lookup. split.
    + intros H i c p Hi Hc Hp. destruct i as [|i]; [lia|].
      replace (S i - 1)%nat with i in Hp by lia.
      exact (H i p c Hp Hc).
    + intros H i p c Hp Hc.
      apply (H (S i) c p); [lia|exact Hc|].
      replace (S i - 1)%nat with i by lia. exact Hp.
Qed.

(** A block that fails its own hash check makes the chain fail. *)
Lemma chain_ok_hash_mismatch (prefix : string) (blocks : list Block)
      (i : nat) (b : Block) :
  (1 <= i)%nat ->
  blocks !! i = Some b ->
  hash b <> compute_hash b ->
  chain_ok prefix blocks = false.
Proof.
  intros Hi Hb Hne.
  destruct (chain_ok prefix blocks) eqn:Hok; [|reflexivity].
  exfalso. apply Hne.
  destruct (lookup_lt_is_Some_2 blocks (i - 1)%nat) as [p Hp].
  { pose proof (lookup_lt_Some _ _ _ Hb). lia. }
  pose proof (proj1 (chain_ok_lookup prefix blocks) Hok i b p Hi Hb Hp) as Hc.
  apply block_checks_true in Hc. tauto.
Qed.

(** Adding a block at the end adds its checks against the old last block. *)
Lemma links_ok_snoc (prefix : string) (rest : list Block) :
  forall (previous b : Block),
    links_ok prefix previous (rest ++ [b])%list
    = links_ok prefix previous rest
      && block_checks prefix (default previous (last rest)) b.
Proof.
  induction rest as [|current rest' IH]; intros previous b.
  - cbn. rewrite andb_true_r. reflexivity.
  - cbn [app links_ok]. rewrite IH, andb_assoc. f_equal. f_equal.
    rewrite last_cons. destruct (last rest'); reflexivity.
Qed.

(** ** [Block] *)

Lemma compute_hash_set_hash (h : string) (b : Block) :
  compute_hash (set_hash h b) = compute_hash b.
Proof. reflexivity. Qed.

(** A new block carries the hash of its own fields. *)
Lemma Block_init_hash (now : float) (i : Z) (d : json) (ph : string) :
  hash (Block_init now i d ph) = compute_hash (Block_init now i d ph).
Proof. reflexivity. Qed.

Lemma pow_step_hash (b : Block) : hash (pow_step b) = compute_hash (pow_step b).
Proof. reflexivity. Qed.

(** The loop of [proof_of_work] changes [nonce] and [hash] only. *)
Lemma pow_steps_frame (n : nat) (b : Block) :
  index (Nat.iter n pow_step b) = index b
  /\ timestamp (Nat.iter n pow_step b) = timestamp b
  /\ data (Nat.iter n pow_step b) = data b
  /\ previous_hash (Nat.iter n pow_step b) = previous_hash b
  /\ nonce (Nat.iter n pow_step b) = nonce b + Z.of_nat n.
Proof.
  induction n as [|n IH].
  - cbn. repeat split; lia.
  - destruct IH as (Hi & Ht & Hd & Hp & Hn).
    rewrite Nat.iter_succ. cbn [pow_step set_hash set_nonce index timestamp data
                                 previous_hash nonce].
    repeat split; try assumption. lia.
Qed.

Lemma pow_steps_hash (n : nat) (b : Block) :
  hash b = compute_hash b ->
  hash (Nat.iter n pow_step b) = compute_hash (Nat.iter n pow_step b).
Proof.
  intros Hb. destruct n as [|n]; [exact Hb|].
  rewrite Nat.iter_succ. apply pow_step_hash.
Qed.

(** ** [proof_of_work] *)

Lemma pow_loop_hit (fuel : nat) (prefix : string) (b : Block) :
  startswith (hash b) prefix = true ->
  pow_loop fuel prefix b = Ret (b, hash b).
Proof. intros H. destruct fuel; cbn [pow_loop]; rewrite H; reflexivity. Qed.

Lemma pow_loop_miss (fuel : nat) (prefix : string) (b : Block) :
  startswith (hash b) prefix = false ->
  pow_loop (S fuel) prefix b = pow_loop fuel prefix (pow_step b).
Proof. intros H. cbn [pow_loop]. rewrite H. reflexivity. Qed.

(** What the loop does within [fuel] turns: it stops at the first block of
    the sequence [b], [pow_step b], ... whose hash has the prefix and
    returns that hash; it is still running when none of the first
    [fuel + 1] has it; it never raises. *)
Lemma pow_loop_spec (prefix : string) (fuel : nat) :
  forall b : Block,
    match pow_loop fuel prefix b with
    | Ret (b', h) =>
        exists n : nat,
          (n <= fuel)%nat
          /\ b' = Nat.iter n pow_step b
          /\ h = hash b'
          /\ startswith (hash b') prefix = true
          /\ forall m : nat, (m < n)%nat ->
               startswith (hash (Nat.iter m pow_step b)) prefix = false
    | Raise _ => False
    | Timeout =>
        forall m : nat, (m <= fuel)%nat ->
          startswith (hash (Nat.iter m pow_step b)) prefix = false
    end.
Proof.
  induction fuel as [|fuel IH]; intros b.
  - cbn [pow_loop]. destruct (startswith (hash b) prefix) eqn:Hsw; cbn [negb].
    + exists 0%nat. cbn. repeat split; try assumption; try lia.
    + intros m Hm. replace m with 0%nat by lia. exact Hsw.
  - destruct (startswith (hash b) prefix) eqn:Hsw.
    + rewrite pow_loop_hit by exact Hsw.
      exists 0%nat. cbn. repeat split; try assumption; try lia.
    + rewrite pow_loop_miss by exact Hsw.
      specialize (IH (pow_step b)).
      destruct (pow_loop fuel prefix (pow_step b)) as [[b' h]|e|].
      * destruct IH as (n & Hn & Hb' & Hh & Hp & Hfirst).
        exists (S n). rewrite Nat.iter_succ_r.
        repeat split; try assumption; try lia.
        intros m Hm. destruct m as [|m]; [exact Hsw|].
        rewrite Nat.iter_succ_r. apply Hfirst. lia.
      * exact IH.
      * intros m Hm. destruct m as [|m]; [exact Hsw|].
        rewrite Nat.iter_succ_r. apply IH. lia.
Qed.

(** More fuel does not change a result already reached. *)
Lemma pow_loop_more_fuel (prefix : string) (fuel fuel' : nat) :
  forall (b : Block) (r : Block * string),
    (fuel <= fuel')%nat ->
    pow_loop fuel prefix b = Ret r ->
    pow_loop fuel' prefix b = Ret r.
Proof.
  revert fuel'. induction fuel as [|fuel IH]; intros fuel' b r Hle Hr.
  - cbn [pow_loop] in Hr.
    destruct (startswith (hash b) prefix) eqn:Hsw; cbn [negb] in Hr; [|discriminate].
    rewrite pow_loop_hit by exact Hsw. exact Hr.
  - destruct (startswith (hash b) prefix) eqn:Hsw.
    + rewrite pow_loop_hit in Hr by exact Hsw.
      rewrite pow_loop_hit by exact Hsw. exact Hr.
    + rewrite pow_loop_miss in Hr by exact Hsw.
      destruct fuel' as [|fuel']; [lia|].
      rewrite pow_loop_miss by exact Hsw.
      apply IH; [lia|exact Hr].
Qed.

(** ** [add_block] *)

Lemma last_block_Ret (self : Blockchain) (tail : Block) :
  last_block self = Ret tail ->
  last (chain self) = Some tail.
Proof.
  unfold last_block. destruct (chain self) as [|b l] using rev_ind.
  - rewrite getitem_nil. discriminate.
  - rewrite getitem_last, last_snoc. congruence.
Qed.

Lemma last_block_Raise (self : Blockchain) (e : exn) :
  last_block self = Raise e -> chain self = [].
Proof.
  unfold last_block. destruct (chain self) as [|b l] using rev_ind.
  - reflexivity.
  - rewrite getitem_last. discriminate.
Qed.

Lemma last_block_not_Timeout (self : Blockchain) : last_block self <> Timeout.
Proof.
  unfold last_block. destruct (chain self) as [|b l] using rev_ind.
  - rewrite getitem_nil. discriminate.
  - rewrite getitem_last. discriminate.
Qed.

Lemma add_block_Ret (fuel : nat) (now : float) (payload : json)
      (self self' : Blockchain) (block : Block) :
  add_block fuel now payload self = Ret (self', block) ->
  exists (tail : Block) (n : nat),
    last_block self = Ret tail
    /\ (n <= fuel)%nat
    /\ block = Nat.iter n pow_step (candidate now payload self tail)
    /\ startswith (hash block) (str_mul "0" (difficulty self)) = true
    /\ self' = set_chain (chain self ++ [block])%list self.
Proof.
  unfold add_block, proof_of_work. intros H.
  destruct (last_block self) as [tail|e|] eqn:Htail;
    cbn [mbind outcome_bind bind] in H; try discriminate.
  pose proof (pow_loop_spec (str_mul "0" (difficulty self)) fuel
                (Block_init now (len (chain self)) payload (hash tail))) as Hpow.
  destruct (pow_loop fuel _ _) as [[b' h]|e|];
    cbn [mbind outcome_bind bind fst] in H; try discriminate.
  destruct Hpow as (n & Hn & Hb' & _ & Hp & _).
  injection H as Hself Hblock. subst self' block.
  exists tail, n. repeat split; assumption.
Qed.

Lemma add_block_more_fuel (fuel fuel' : nat) (now : float) (payload : json)
      (self : Blockchain) (r : Blockchain * Block) :
  (fuel <= fuel')%nat ->
  add_block fuel now payload self = Ret r ->
  add_block fuel' now payload self = Ret r.
Proof.
  unfold add_block, proof_of_work. intros Hle H.
  destruct (last_block self) as [tail|e|]; cbn [mbind outcome_bind bind] in *;
    try discriminate.
  destruct (pow_loop fuel _ _) as [sealed|e|] eqn:Hpow;
    cbn [mbind outcome_bind bind] in H; try discriminate.
  rewrite (pow_loop_more_fuel _ fuel fuel' _ sealed Hle Hpow). exact H.
Qed.

(** ** The run *)

Lemma demo_add_block1 :
  add_block 2 Demo.t1 Demo.alice_to_bob Demo.chain0 = Ret (Demo.chain1, Demo.block1).
Proof. vm_compute. reflexivity. Qed.

Lemma demo_add_block2 :
  add_block 0 Demo.t2 Demo.bob_to_charlie Demo.chain1 = Ret (Demo.chain2, Demo.block2).
Proof. vm_compute. reflexivity. Qed.

Lemma demo_chain0 : Blockchain_init Demo.t0 = Demo.chain0.
Proof. vm_compute. reflexivity. Qed.

Lemma demo_candidate1 :
  candidate Demo.t1 Demo.alice_to_bob Demo.chain0 Demo.genesis = Demo.candidate1.
Proof. vm_compute. reflexivity. Qed.

(** ** What [is_valid] answers *)

(** C1. [is_valid] never raises and always returns; it returns [True]
    exactly when every block at a position [i >= 1] has a stored hash equal
    to [compute_hash()], a [previous_hash] equal to the hash stored in the
    block at [i - 1], and a stored hash that starts with [difficulty]
    characters ['0'].  The block at position 0 is never the one checked. *)
Theorem is_valid_iff_checks (self : Blockchain) :
  exists r : bool,
    is_valid self = Ret r
    /\ (r = true <->
        forall (i : nat) (current previous : Block),
          (1 <= i)%nat ->
          chain self !! i = Some current ->
          chain self !! (i - 1)%nat = Some previous ->
          hash current = compute_hash current
          /\ previous_hash current = hash previous
          /\ startswith (hash current) (str_mul "0" (difficulty self)) = true).
Proof.
  exists (chain_ok (str_mul "0" (difficulty self)) (chain self)).
  split; [apply is_valid_chain_ok|].
  rewrite chain_ok_lookup. split.
  - intros H i c p Hi Hc Hp. apply block_checks_true. exact (H i c p Hi Hc Hp).
  - intros H i c p Hi Hc Hp. apply block_checks_true. exact (H i c p Hi Hc Hp).
Qed.

(** C7. A new chain holds one block, the genesis block: index 0,
    [previous_hash] ["0"], the fixed payload [{"message": "Genesis block"}],
    nonce 0 and the hash of these fields; [is_valid] returns [True] on it. *)
Theorem fresh_chain_genesis (now : float) :
  exists genesis : Block,
    chain (Blockchain_init now) = [genesis]
    /\ index genesis = 0
    /\ previous_hash genesis = "0"
    /\ data genesis = genesis_data
    /\ timestamp genesis = now
    /\ nonce genesis = 0
    /\ hash genesis = compute_hash genesis
    /\ is_valid (Blockchain_init now) = Ret true.
Proof.
  exists (Block_init now 0 genesis_data "0").
  do 7 (split; [reflexivity|]).
  rewrite is_valid_chain_ok. reflexivity.
Qed.

(** C8. [is_valid] reads nothing of the first block but its stored hash:
    two chains with the same difficulty and the same blocks after the
    first, whose first blocks store the same hash, get the same answer,
    whatever the payload, the nonce and the other fields of the first
    blocks, and whether or not the stored hash is the hash of these fields
    or has the prefix. *)
Theorem is_valid_ignores_genesis (d : Z) (genesis genesis' : Block)
        (rest : list Block) :
  hash genesis = hash genesis' ->
  is_valid (mkBlockchain (genesis :: rest) d)
  = is_valid (mkBlockchain (genesis' :: rest) d).
Proof.
  intros Hh. rewrite !is_valid_chain_ok. cbn [chain difficulty chain_ok].
  destruct rest as [|current rest']; [reflexivity|].
  cbn [links_ok]. unfold block_checks. rewrite Hh. reflexivity.
Qed.

Lemma is_valid_ignores_genesis_witness :
  hash Demo.forged_genesis = hash Demo.genesis
  /\ hash Demo.forged_genesis <> compute_hash Demo.forged_genesis
  /\ is_valid (mkBlockchain (Demo.forged_genesis :: [Demo.block1; Demo.block2]) 4)
     = is_valid (mkBlockchain (Demo.genesis :: [Demo.block1; Demo.block2]) 4)
  /\ is_valid (mkBlockchain (Demo.genesis :: [Demo.block1; Demo.block2]) 4)
     = Ret true.
Proof.
  split; [reflexivity|].
  split; [vm_compute; discriminate|].
  split; [apply (is_valid_ignores_genesis 4 Demo.forged_genesis Demo.genesis);
          reflexivity|].
  vm_compute. reflexivity.
Defined.

(** ** What [last_block] returns *)

(** C9. On a chain with no block [last_block] raises, the [IndexError] of
    [self.chain[-1]]; on a chain with at least one block it returns the
    block at the end of the list, which is the block added last: the block
    [add_block] has just returned, or the genesis block on a new chain. *)
Theorem last_block_spec :
  (forall d : Z, last_block (mkBlockchain [] d) = Raise IndexError)
  /\ (forall (blocks : list Block) (b : Block) (d : Z),
        last_block (mkBlockchain (blocks ++ [b])%list d) = Ret b)
  /\ (forall (fuel : nat) (now : float) (payload : json)
             (self self' : Blockchain) (b : Block),
        add_block fuel now payload self = Ret (self', b) ->
        last_block self' = Ret b)
  /\ (forall now : float,
        last_block (Blockchain_init now) = Ret (Block_init now 0 genesis_data "0")).
Proof.
  split; [|split; [|split]].
  - intros d. apply getitem_nil.
  - intros blocks b d. apply getitem_last.
  - intros fuel now payload self self' b Hadd.
    apply add_block_Ret in Hadd.
    destruct Hadd as (_ & _ & _ & _ & _ & _ & Hself). subst self'.
    apply getitem_last.
  - intros now. reflexivity.
Qed.

(** ** What [proof_of_work] and [add_block] return *)

(** C10. When the stored hash of a block already starts with [difficulty]
    characters ['0'], [proof_of_work] returns that hash without a turn of
    its loop, whatever the bound, and leaves the block as it was.  So a
    block that [add_block] builds with such a hash is added with nonce 0. *)
Theorem proof_of_work_already_sealed (fuel : nat) (self : Blockchain) (b : Block) :
  startswith (hash b) (str_mul "0" (difficulty self)) = true ->
  proof_of_work fuel self b = Ret (b, hash b)
  /\ forall (now : float) (payload : json) (tail : Block),
       last_block self = Ret tail ->
       b = candidate now payload self tail ->
       add_block fuel now payload self
       = Ret (set_chain (chain self ++ [b])%list self, b)
       /\ nonce b = 0.
Proof.
  intros Hsw.
  assert (Hpow : proof_of_work fuel self b = Ret (b, hash b))
    by (apply pow_loop_hit; exact Hsw).
  split; [exact Hpow|].
  intros now payload tail Htail Hb.
  split; [|rewrite Hb; reflexivity].
  unfold add_block. rewrite Htail. cbn [mbind outcome_bind bind].
  unfold candidate in Hb. rewrite <- Hb, Hpow. reflexivity.
Qed.

Lemma proof_of_work_already_sealed_witness :
  startswith (hash Demo.block2) (str_mul "0" (difficulty Demo.chain1)) = true
  /\ proof_of_work 0 Demo.chain1 Demo.block2 = Ret (Demo.block2, hash Demo.block2)
  /\ add_block 0 Demo.t2 Demo.bob_to_charlie Demo.chain1
     = Ret (set_chain (chain Demo.chain1 ++ [Demo.block2])%list Demo.chain1,
            Demo.block2)
  /\ nonce Demo.block2 = 0.
Proof.
  assert (Hsw : startswith (hash Demo.block2) (str_mul "0" (difficulty Demo.chain1))
                = true) by (vm_compute; reflexivity).
  split; [exact Hsw|].
  destruct (proof_of_work_already_sealed 0 Demo.chain1 Demo.block2 Hsw) as [Hpow Hadd].
  split; [exact Hpow|].
  apply (Hadd Demo.t2 Demo.bob_to_charlie Demo.block1); reflexivity.
Defined.

(** C3. What a call of [add_block] does, for every chain.  If it returns,
    the chain had a last block, the block returned has the old length of
    the chain as index, the hash stored in the old last block as
    [previous_hash], the payload and the clock value given, and the chain
    is the old one with exactly this block added at the end.  It raises on
    a chain with no block only, and it is still mining after [fuel] turns
    only if none of the nonces [0 .. fuel] gives a hash with the prefix. *)
Theorem add_block_links_new_block (fuel : nat) (now : float) (payload : json)
        (self : Blockchain) :
  match add_block fuel now payload self with
  | Ret (self', block) =>
      exists tail : Block,
        last_block self = Ret tail
        /\ last (chain self) = Some tail
        /\ index block = len (chain self)
        /\ previous_hash block = hash tail
        /\ data block = payload
        /\ timestamp block = now
        /\ chain self' = (chain self ++ [block])%list
        /\ difficulty self' = difficulty self
  | Raise _ => chain self = []
  | Timeout =>
      exists tail : Block,
        last_block self = Ret tail
        /\ forall n : nat, (n <= fuel)%nat ->
             startswith (hash (Nat.iter n pow_step (candidate now payload self tail)))
                        (str_mul "0" (difficulty self)) = false
  end.
Proof.
  destruct (add_block fuel now payload self) as [[self' block]|e|] eqn:Hadd.
  - apply add_block_Ret in Hadd.
    destruct Hadd as (tail & n & Htail & _ & Hblock & _ & Hself).
    exists tail.
    destruct (pow_steps_frame n (candidate now payload self tail))
      as (Hi & Ht & Hd & Hp & _).
    rewrite <- Hblock in Hi, Ht, Hd, Hp.
    subst self'. repeat split; try assumption.
    apply last_block_Ret. exact Htail.
  - unfold add_block in Hadd.
    destruct (last_block self) as [tail|e'|] eqn:Htail;
      cbn [mbind outcome_bind bind] in Hadd.
    + pose proof (pow_loop_spec (str_mul "0" (difficulty self)) fuel
                    (candidate now payload self tail)) as Hpow.
      unfold proof_of_work, candidate in *.
      destruct (pow_loop fuel _ _) as [[b' h]|e'|];
        cbn [mbind outcome_bind bind] in Hadd; [discriminate|contradiction|discriminate].
    + apply (last_block_Raise self e'). exact Htail.
    + destruct (last_block_not_Timeout self Htail).
  - unfold add_block in Hadd.
    destruct (last_block self) as [tail|e'|] eqn:Htail;
      cbn [mbind outcome_bind bind] in Hadd.
    + exists tail. split; [reflexivity|].
      pose proof (pow_loop_spec (str_mul "0" (difficulty self)) fuel
                    (candidate now payload self tail)) as Hpow.
      unfold proof_of_work, candidate in *.
      destruct (pow_loop fuel _ _) as [[b' h]|e'|];
        cbn [mbind outcome_bind bind] in Hadd; [discriminate|discriminate|].
      exact Hpow.
    + discriminate.
    + destruct (last_block_not_Timeout self Htail).
Qed.

Lemma add_block_links_new_block_witness :
  exists tail : Block,
    last_block Demo.chain0 = Ret tail
    /\ last (chain Demo.chain0) = Some tail
    /\ index Demo.block1 = len (chain Demo.chain0)
    /\ previous_hash Demo.block1 = hash tail
    /\ data Demo.block1 = Demo.alice_to_bob
    /\ timestamp Demo.block1 = Demo.t1
    /\ chain Demo.chain1 = (chain Demo.chain0 ++ [Demo.block1])%list
    /\ difficulty Demo.chain1 = difficulty Demo.chain0.
Proof.
  pose proof (add_block_links_new_block 2 Demo.t1 Demo.alice_to_bob Demo.chain0) as H.
  rewrite demo_add_block1 in H. exact H.
Defined.

(** C4, with the condition the code needs.  When [proof_of_work] returns,
    the stored hash of the block starts with [difficulty] characters ['0']
    and is the value returned.  It is the hash of the block's fields if it
    was so when the call began, as it is for a block just built, or if the
    loop ran at least once, which the nonce shows.  Every block that
    [add_block] returns has the prefix and stores the hash of its fields. *)
Theorem proof_of_work_seals (fuel : nat) (self : Blockchain) :
  (forall (b b' : Block) (h : string),
      proof_of_work fuel self b = Ret (b', h) ->
      startswith (hash b') (str_mul "0" (difficulty self)) = true
      /\ h = hash b'
      /\ (hash b = compute_hash b \/ nonce b' <> nonce b ->
          hash b' = compute_hash b'))
  /\ (forall (now : float) (payload : json) (self' : Blockchain) (block : Block),
        add_block fuel now payload self = Ret (self', block) ->
        startswith (hash block) (str_mul "0" (difficulty self)) = true
        /\ hash block = compute_hash block).
Proof.
  split.
  - intros b b' h Hpow.
    pose proof (pow_loop_spec (str_mul "0" (difficulty self)) fuel b) as Hspec.
    unfold proof_of_work in Hpow. rewrite Hpow in Hspec.
    destruct Hspec as (n & _ & Hb' & Hh & Hp & _).
    split; [exact Hp|]. split; [exact Hh|].
    intros [Hentry|Hnonce].
    + subst b'. apply pow_steps_hash. exact Hentry.
    + subst b'. destruct n as [|n].
      * cbn in Hnonce. congruence.
      * rewrite Nat.iter_succ. apply pow_step_hash.
  - intros now payload self' block Hadd.
    apply add_block_Ret in Hadd.
    destruct Hadd as (tail & n & _ & _ & Hblock & Hp & _).
    split; [exact Hp|].
    subst block. apply pow_steps_hash. apply Block_init_hash.
Qed.

Lemma proof_of_work_seals_witness :
  proof_of_work 2 Demo.chain0 Demo.candidate1 = Ret (Demo.block1, hash Demo.block1)
  /\ startswith (hash Demo.block1) (str_mul "0" (difficulty Demo.chain0)) = true
  /\ hash Demo.block1 = compute_hash Demo.block1
  /\ nonce Demo.block1 = 2.
Proof.
  assert (Hpow : proof_of_work 2 Demo.chain0 Demo.candidate1
                 = Ret (Demo.block1, hash Demo.block1))
    by (vm_compute; reflexivity).
  split; [exact Hpow|].
  destruct (proof_of_work_seals 2 Demo.chain0) as [Hseal _].
  destruct (Hseal _ _ _ Hpow) as (Hp & _ & Hh).
  split; [exact Hp|].
  split; [apply Hh; left; vm_compute; reflexivity|reflexivity].
Defined.

(** C4 as the claim words it fails on a block whose stored hash has the
    prefix and is not the hash of its fields: [proof_of_work] returns at
    once and the stored hash stays what it was. *)
Lemma proof_of_work_forged_hash_counterexample :
  proof_of_work 0 Demo.chain0 Demo.zero_hash_block
  = Ret (Demo.zero_hash_block, hash Demo.zero_hash_block)
  /\ hash Demo.zero_hash_block <> compute_hash Demo.zero_hash_block.
Proof.
  split.
  - vm_compute. reflexivity.
  - vm_compute. discriminate.
Qed.

(** ** Chains built by the program *)

Lemma constructed_nonempty (self : Blockchain) :
  constructed self ->
  exists (now : float) (rest : list Block),
    chain self = Block_init now 0 genesis_data "0" :: rest.
Proof.
  induction 1 as [now d|self fuel now payload self' block _ IH Hadd].
  - exists now, []. reflexivity.
  - destruct IH as (t & rest & Hchain).
    apply add_block_Ret in Hadd.
    destruct Hadd as (_ & _ & _ & _ & _ & _ & Hself). subst self'.
    exists t, (rest ++ [block])%list. cbn [set_chain chain]. rewrite Hchain.
    reflexivity.
Qed.

Lemma constructed_chain_ok (self : Blockchain) :
  constructed self ->
  chain_ok (str_mul "0" (difficulty self)) (chain self) = true.
Proof.
  induction 1 as [now d|self fuel now payload self' block Hc IH Hadd].
  - reflexivity.
  - destruct (constructed_nonempty self Hc) as (t & rest & Hchain).
    apply add_block_Ret in Hadd.
    destruct Hadd as (tail & n & Htail & _ & Hblock & Hp & Hself). subst self'.
    apply last_block_Ret in Htail.
    cbn [set_chain chain difficulty].
    rewrite Hchain in IH, Htail |- *. cbn [app chain_ok] in IH |- *.
    rewrite links_ok_snoc, IH. cbn [andb].
    assert (Hdef : default (Block_init t 0 genesis_data "0") (last rest) = tail).
    { rewrite last_cons in Htail. destruct (last rest); cbn; congruence. }
    rewrite Hdef. apply block_checks_true.
    destruct (pow_steps_frame n (candidate now payload self tail))
      as (_ & _ & _ & Hprev & _).
    rewrite <- Hblock in Hprev.
    split; [|split; [exact Hprev|exact Hp]].
    subst block. apply pow_steps_hash. apply Block_init_hash.
Qed.

(** C5. On a chain made by [Blockchain()] and then any number of calls of
    [add_block] that returned, with nothing changed from outside,
    [is_valid] returns [True]; the first block is the genesis block, and
    each later block stores as [previous_hash] the hash of the block before
    it. *)
Theorem constructed_chain_valid (self : Blockchain) :
  constructed self ->
  is_valid self = Ret true
  /\ (exists (now : float) (rest : list Block),
        chain self = Block_init now 0 genesis_data "0" :: rest)
  /\ (forall (i : nat) (current previous : Block),
        (1 <= i)%nat ->
        chain self !! i = Some current ->
        chain self !! (i - 1)%nat = Some previous ->
        previous_hash current = hash previous).
Proof.
  intros Hc. pose proof (constructed_chain_ok self Hc) as Hok.
  split; [rewrite is_valid_chain_ok, Hok; reflexivity|].
  split; [exact (constructed_nonempty self Hc)|].
  intros i c p Hi Hcur Hprev.
  pose proof (proj1 (chain_ok_lookup _ _) Hok i c p Hi Hcur Hprev) as Hchk.
  apply block_checks_true in Hchk. tauto.
Qed.

Lemma demo_constructed : constructed Demo.chain2.
Proof.
  apply (constructed_add Demo.chain1 0 Demo.t2 Demo.bob_to_charlie _ Demo.block2);
    [|exact demo_add_block2].
  apply (constructed_add Demo.chain0 2 Demo.t1 Demo.alice_to_bob _ Demo.block1);
    [|exact demo_add_block1].
  rewrite <- demo_chain0. exact (constructed_init Demo.t0 4).
Qed.

Lemma constructed_chain_valid_witness :
  constructed Demo.chain2
  /\ is_valid Demo.chain2 = Ret true
  /\ length (chain Demo.chain2) = 3%nat
  /\ previous_hash Demo.block2 = hash Demo.block1
  /\ previous_hash Demo.block1 = hash Demo.genesis.
Proof.
  split; [exact demo_constructed|].
  destruct (constructed_chain_valid Demo.chain2 demo_constructed) as (Hv & _ & Hl).
  split; [exact Hv|]. split; [reflexivity|].
  split.
  - apply (Hl 2%nat Demo.block2 Demo.block1); [lia|reflexivity|reflexivity].
  - apply (Hl 1%nat Demo.block1 Demo.genesis); [lia|reflexivity|reflexivity].
Defined.

(** ** Sorting the items of a [dict] *)

Lemma leb_trans (a b c : string) :
  String.leb a b = true -> String.leb b c = true -> String.leb a c = true.
Proof.
  revert b c. unfold String.leb.
  induction a as [|x a IH]; intros [|y b] [|z c]; cbn; try congruence.
  unfold Ascii.compare.
  destruct (N.compare_spec (N_of_ascii x) (N_of_ascii y)) as [Hxy|Hxy|Hxy];
    destruct (N.compare_spec (N_of_ascii y) (N_of_ascii z)) as [Hyz|Hyz|Hyz];
    destruct (N.compare_spec (N_of_ascii x) (N_of_ascii z)) as [Hxz|Hxz|Hxz];
    try congruence; try lia.
  apply IH.
Qed.

Section Sorted.

Context {V : Type}.
Implicit Types (x y : string * V) (l : list (string * V)).

Lemma insert_item_perm x l : Permutation (insert_item x l) (x :: l).
Proof.
  induction l as [|y l IH]; cbn [insert_item].
  - reflexivity.
  - destruct (String.leb x.1 y.1); [reflexivity|].
    rewrite IH. apply perm_swap.
Qed.

Lemma sorted_perm l : Permutation (sorted l) l.
Proof.
  induction l as [|x l IH]; cbn.
  - reflexivity.
  - fold (sorted l). rewrite insert_item_perm, IH. reflexivity.
Qed.

Lemma insert_item_sorted x l :
  StronglySorted key_le l -> StronglySorted key_le (insert_item x l).
Proof.
  induction 1 as [|y l Hs IH Hall]; cbn [insert_item].
  - constructor; constructor.
  - destruct (String.leb x.1 y.1) eqn:Hxy.
    + constructor; [constructor; assumption|].
      constructor; [exact Hxy|].
      eapply Forall_impl; [exact Hall|].
      intros z Hz. unfold key_le in *. eapply leb_trans; eassumption.
    + constructor; [exact IH|].
      assert (Hyx : key_le y x).
      { unfold key_le. destruct (String.leb_total x.1 y.1); congruence. }
      eapply Permutation_Forall; [symmetry; apply insert_item_perm|].
      constructor; assumption.
Qed.

Lemma sorted_sorted l : StronglySorted key_le (sorted l).
Proof.
  induction l as [|x l IH]; cbn.
  - constructor.
  - apply insert_item_sorted. exact IH.
Qed.

(** With distinct keys there is one sorted arrangement. *)
Lemma sorted_unique l1 :
  forall l2,
    StronglySorted key_le l1 -> StronglySorted key_le l2 ->
    Permutation l1 l2 -> NoDup (map fst l1) -> l1 = l2.
Proof.
  induction l1 as [|x l1 IH]; intros l2 Hs1 Hs2 Hperm Hnd.
  - apply Permutation_nil in Hperm. congruence.
  - destruct l2 as [|y l2].
    { symmetry in Hperm. apply Permutation_nil in Hperm. discriminate. }
    apply StronglySorted_inv in Hs1. destruct Hs1 as [Hs1 Hx].
    apply StronglySorted_inv in Hs2. destruct Hs2 as [Hs2 Hy].
    rewrite Forall_forall in Hx, Hy.
    cbn [map] in Hnd. apply NoDup_cons in Hnd. destruct Hnd as [Hnotin Hnd].
    assert (Hxy : x = y).
    { assert (Hxin : In x (y :: l2)) by (eapply Permutation_in; [exact Hperm|left; reflexivity]).
      assert (Hyin : In y (x :: l1))
        by (eapply Permutation_in; [symmetry; exact Hperm|left; reflexivity]).
      destruct Hxin as [Heq|Hxin]; [congruence|].
      destruct Hyin as [Heq|Hyin]; [congruence|].
      exfalso. apply Hnotin.
      assert (Hk : x.1 = y.1).
      { apply String.leb_antisym.
        - apply (Hx y), list_elem_of_In, Hyin.
        - apply (Hy x), list_elem_of_In, Hxin. }
      rewrite Hk. apply list_elem_of_In, in_map. exact Hyin. }
    subst y. f_equal.
    apply IH; try assumption.
    eapply Permutation_cons_inv. exact Hperm.
Qed.

Lemma sorted_permutation l l' :
  Permutation l l' -> NoDup (map fst l) -> sorted l = sorted l'.
Proof.
  intros Hperm Hnd. apply sorted_unique.
  - apply sorted_sorted.
  - apply sorted_sorted.
  - rewrite !sorted_perm. exact Hperm.
  - assert (Hkeys : Permutation (map fst (sorted l)) (map fst l))
      by (apply Permutation_map, sorted_perm).
    rewrite Hkeys. exact Hnd.
Qed.

End Sorted.

(** Writing the values and sorting the items can be done in either order. *)
Lemma sorted_map_values {V W : Type} (f : V -> W) (l : list (string * V)) :
  sorted (map (fun kv => (kv.1, f kv.2)) l)
  = map (fun kv => (kv.1, f kv.2)) (sorted l).
Proof.
  induction l as [|x l IH]; [reflexivity|].
  cbn [map sorted fold_right]. fold (sorted l).
  fold (sorted (map (fun kv : string * V => (kv.1, f kv.2)) l)).
  rewrite IH. generalize (sorted l) as s. intros s.
  induction s as [|y s IHs]; [reflexivity|].
  cbn [insert_item map fst].
  destruct (String.leb x.1 y.1); [reflexivity|].
  cbn [map]. rewrite IHs. reflexivity.
Qed.

(** ** [json.dumps] and the order of keys *)

Section JsonEquivInduction.

Variable P : json -> json -> Prop.

Hypothesis P_null : P JNull JNull.
Hypothesis P_bool : forall b, P (JBool b) (JBool b).
Hypothesis P_int : forall z, P (JInt z) (JInt z).
Hypothesis P_float : forall f, P (JFloat f) (JFloat f).
Hypothesis P_string : forall s, P (JString s) (JString s).
Hypothesis P_list :
  forall l l', Forall2 json_equiv l l' -> Forall2 P l l' -> P (JList l) (JList l').
Hypothesis P_dict :
  forall items reordered items',
    Permutation items reordered ->
    Forall2 (fun kv kv' => kv.1 = kv'.1 /\ json_equiv kv.2 kv'.2) reordered items' ->
    Forall2 (fun kv kv' => kv.1 = kv'.1 /\ P kv.2 kv'.2) reordered items' ->
    P (JDict items) (JDict items').

(** Induction on [json_equiv] that also reaches the values inside lists
    and dictionaries. *)
Lemma json_equiv_nested_ind : forall a b : json, json_equiv a b -> P a b.
Proof.
  fix IH 3. intros a b H.
  destruct H as [|b|z|f|s|l l' Hl|items reordered items' Hperm Hitems].
  - exact P_null.
  - apply P_bool.
  - apply P_int.
  - apply P_float.
  - apply P_string.
  - apply P_list; [exact Hl|].
    revert l l' Hl. fix IHl 3. intros l l' Hl.
    destruct Hl as [|x y l l' Hxy Hl]; constructor.
    + apply IH. exact Hxy.
    + apply IHl. exact Hl.
  - apply (P_dict items reordered items'); [exact Hperm|exact Hitems|].
    clear Hperm. revert reordered items' Hitems. fix IHl 3. intros l l' Hl.
    destruct Hl as [|x y l l' [Hk Hv] Hl]; constructor.
    + split; [exact Hk|]. apply IH. exact Hv.
    + apply IHl. exact Hl.
Qed.

End JsonEquivInduction.

Lemma wf_json_list (l : list json) :
  wf_json (JList l) <-> Forall wf_json l.
Proof.
  cbn [wf_json]. induction l as [|x l IH]; cbn [fold_right].
  - split; [constructor|trivial].
  - rewrite Forall_cons, IH. reflexivity.
Qed.

Lemma wf_json_dict (items : list (string * json)) :
  wf_json (JDict items) <->
  NoDup (map fst items) /\ Forall (fun kv => wf_json kv.2) items.
Proof.
  cbn [wf_json]. apply and_iff_compat_l.
  induction items as [|x l IH]; cbn [fold_right].
  - split; [constructor|trivial].
  - rewrite Forall_cons, IH. reflexivity.
Qed.

(** Values equal up to the order of keys are written the same. *)
Lemma dumps_json_equiv (a b : json) :
  json_equiv a b -> wf_json a -> dumps a = dumps b.
Proof.
  intros H. induction H using json_equiv_nested_ind; try reflexivity.
  - (* lists *)
    intros Hwf. apply wf_json_list in Hwf. cbn [dumps]. do 3 f_equal.
    clear H. induction H0 as [|x y l l' Hxy Hl IH]; [reflexivity|].
    apply Forall_cons in Hwf. destruct Hwf as [Hx Hwf].
    cbn [map]. f_equal; [apply Hxy; exact Hx|apply IH; exact Hwf].
  - (* dictionaries *)
    intros Hwf. apply wf_json_dict in Hwf. destruct Hwf as [Hnd Hwf].
    cbn [dumps]. do 4 f_equal.
    transitivity (sorted (map (fun kv : string * json => (kv.1, dumps kv.2)) reordered)).
    + apply sorted_permutation.
      * apply Permutation_map. exact H.
      * rewrite map_map. cbn [fst]. exact Hnd.
    + f_equal. rewrite H in Hwf. clear H H0 Hnd.
      induction H1 as [|x y l l' [Hk Hv] Hl IH]; [reflexivity|].
      apply Forall_cons in Hwf. destruct Hwf as [Hx Hwf].
      cbn [map]. f_equal; [|apply IH; exact Hwf].
      rewrite Hk, (Hv Hx). reflexivity.
Qed.

(** ** The text that is hashed *)

Lemma string_app_assoc (a b c : string) : (a ++ b) ++ c = a ++ (b ++ c).
Proof. induction a as [|x a IH]; cbn; [reflexivity|]. rewrite IH. reflexivity. Qed.

Lemma string_app_inv_head (a x y : string) : a ++ x = a ++ y -> x = y.
Proof. induction a as [|c a IH]; cbn; intros H; [exact H|]. injection H as H. auto. Qed.

Lemma list_ascii_of_string_app (a b : string) :
  list_ascii_of_string (a ++ b)
  = (list_ascii_of_string a ++ list_ascii_of_string b)%list.
Proof. induction a as [|c a IH]; cbn; [reflexivity|]. rewrite IH. reflexivity. Qed.

Lemma string_app_inv_tail (t x y : string) : x ++ t = y ++ t -> x = y.
Proof.
  intros H. apply (f_equal list_ascii_of_string) in H.
  rewrite !list_ascii_of_string_app in H. apply app_inv_tail in H.
  rewrite <- (string_of_list_ascii_of_string x), H.
  apply string_of_list_ascii_of_string.
Qed.

Lemma sorted_block_items {V : Type} (i t d p n : V) :
  sorted [ ("index", i); ("timestamp", t); ("data", d); ("previous_hash", p);
           ("nonce", n) ]
  = [ ("data", d); ("index", i); ("nonce", n); ("previous_hash", p);
      ("timestamp", t) ].
Proof. reflexivity. Qed.

(** The keys are written in order, the payload first. *)
Lemma dumps_block_dict (b : Block) :
  dumps (block_dict b) = block_text_head ++ dumps (data b) ++ block_text_tail b.
Proof.
  unfold block_dict. cbn [dumps map fst snd].
  rewrite sorted_block_items.
  cbn [map String.concat].
  unfold dumps_item, encode_basestring_ascii, block_text_head, block_text_tail.
  cbn [fst snd]. rewrite !string_app_assoc. reflexivity.
Qed.

Lemma utf8_decode_char_encode (c : ascii) (rest : list Z) :
  utf8_decode_char (utf8_char c ++ rest)%list = Some (c, rest).
Proof. destruct c as [[] [] [] [] [] [] [] []]; reflexivity. Qed.

(** [str.encode] loses nothing. *)
Lemma encode_inj (s : string) : forall s' : string, encode s = encode s' -> s = s'.
Proof.
  induction s as [|c s IH]; intros [|c' s'] H; cbn [encode] in H.
  - reflexivity.
  - apply (f_equal utf8_decode_char) in H.
    rewrite utf8_decode_char_encode in H. discriminate H.
  - apply (f_equal utf8_decode_char) in H.
    rewrite utf8_decode_char_encode in H. discriminate H.
  - apply (f_equal utf8_decode_char) in H.
    rewrite !utf8_decode_char_encode in H.
    injection H as Hc Hs. f_equal; [exact Hc|]. apply IH. exact Hs.
Qed.

(** Two blocks that differ in their payload only are hashed from the same
    bytes only if the payloads are written the same. *)
Lemma block_string_set_data (payload : json) (b : Block) :
  block_string (set_data payload b) = block_string b ->
  dumps payload = dumps (data b).
Proof.
  unfold block_string. intros H. apply encode_inj in H.
  rewrite !dumps_block_dict in H.
  change (block_text_tail (set_data payload b)) with (block_text_tail b) in H.
  change (data (set_data payload b)) with payload in H.
  apply string_app_inv_head in H. apply string_app_inv_tail in H. exact H.
Qed.

(** ** Tampering, and the order of keys *)

(** C2, with the proviso a hash needs.  On a chain where [is_valid]
    returns [True], replace the payload of a block at a position [i >= 1]
    by one that [json.dumps] writes differently, and leave the stored
    hash as it is: [is_valid] then returns [False], provided the text
    hashed before and the text hashed after, which differ, are not a
    collision of SHA-256.  The answer is [False] whatever the other
    blocks have become, so also when the payload changed is an object
    that several blocks share.  Without the proviso the statement fails,
    as the count of payloads and hashes at the end of the file shows. *)
Theorem is_valid_detects_payload_tamper (self : Blockchain) (i : nat)
        (current : Block) (payload : json) :
  is_valid self = Ret true ->
  (1 <= i)%nat ->
  chain self !! i = Some current ->
  dumps payload <> dumps (data current) ->
  ~ sha256_collision (block_string (set_data payload current)) (block_string current) ->
  is_valid (set_chain (<[i := set_data payload current]> (chain self)) self)
  = Ret false
  /\ forall blocks' : list Block,
       blocks' !! i = Some (set_data payload current) ->
       is_valid (set_chain blocks' self) = Ret false.
Proof.
  intros Hvalid Hi Hcur Hdumps Hsha.
  rewrite is_valid_chain_ok in Hvalid. injection Hvalid as Hok.
  assert (Hforged : hash (set_data payload current)
                    <> compute_hash (set_data payload current)).
  { change (hash (set_data payload current)) with (hash current).
    intros Hforged.
    assert (Hstored : hash current = compute_hash current).
    { destruct (lookup_lt_is_Some_2 (chain self) (i - 1)%nat) as [p Hp].
      { pose proof (lookup_lt_Some _ _ _ Hcur). lia. }
      pose proof (proj1 (chain_ok_lookup _ _) Hok i current p Hi Hcur Hp) as Hc.
      apply block_checks_true in Hc. tauto. }
    apply Hdumps, block_string_set_data.
    destruct (decide (block_string (set_data payload current) = block_string current))
      as [Heq|Hne]; [exact Heq|].
    exfalso. apply Hsha. split; [exact Hne|].
    unfold compute_hash in Hforged, Hstored. congruence. }
  assert (Hany : forall blocks' : list Block,
             blocks' !! i = Some (set_data payload current) ->
             is_valid (set_chain blocks' self) = Ret false).
  { intros blocks' Hlook. rewrite is_valid_chain_ok. f_equal.
    cbn [set_chain chain difficulty].
    exact (chain_ok_hash_mismatch _ _ i _ Hi Hlook Hforged). }
  split; [|exact Hany].
  apply Hany, list_lookup_insert_eq. exact (lookup_lt_Some _ _ _ Hcur).
Qed.

Lemma is_valid_detects_payload_tamper_witness :
  is_valid Demo.chain2 = Ret true
  /\ dumps Demo.alice_to_bob_999 <> dumps (data Demo.block1)
  /\ ~ sha256_collision (block_string (set_data Demo.alice_to_bob_999 Demo.block1))
                        (block_string Demo.block1)
  /\ is_valid Demo.tampered = Ret false.
Proof.
  assert (Hvalid : is_valid Demo.chain2 = Ret true) by (vm_compute; reflexivity).
  assert (Hdumps : dumps Demo.alice_to_bob_999 <> dumps (data Demo.block1))
    by (vm_compute; discriminate).
  assert (Hsha : ~ sha256_collision
                     (block_string (set_data Demo.alice_to_bob_999 Demo.block1))
                     (block_string Demo.block1)).
  { intros [_ Hsame]. vm_compute in Hsame. discriminate Hsame. }
  split; [exact Hvalid|]. split; [exact Hdumps|]. split; [exact Hsha|].
  exact (proj1 (is_valid_detects_payload_tamper Demo.chain2 1 Demo.block1
                  Demo.alice_to_bob_999 Hvalid (le_n 1) eq_refl Hdumps Hsha)).
Defined.

(** C6. [compute_hash] hashes the five fields written with their keys in
    order, [data], [index], [nonce], [previous_hash], [timestamp], and the
    keys of every dictionary in the payload in order too.  So two blocks
    whose payloads are equal as mappings, whatever the order their keys
    were inserted in, and whose other fields are equal, have the same
    hash. *)
Theorem compute_hash_key_order (b b' : Block) :
  index b = index b' ->
  timestamp b = timestamp b' ->
  previous_hash b = previous_hash b' ->
  nonce b = nonce b' ->
  wf_json (data b) ->
  json_equiv (data b) (data b') ->
  compute_hash b = compute_hash b'
  /\ compute_hash b
     = SHA256.hexdigest
         (encode (block_text_head ++ dumps (data b) ++ block_text_tail b)).
Proof.
  intros Hi Ht Hp Hn Hwf Heq.
  split; [|unfold compute_hash, block_string; rewrite dumps_block_dict; reflexivity].
  unfold compute_hash, block_string. rewrite !dumps_block_dict.
  rewrite (dumps_json_equiv _ _ Heq Hwf).
  unfold block_text_tail. rewrite Hi, Ht, Hp, Hn. reflexivity.
Qed.

Lemma compute_hash_key_order_witness :
  Demo.alice_to_bob <> Demo.bob_from_alice
  /\ compute_hash Demo.block1
     = compute_hash (set_data Demo.bob_from_alice Demo.block1).
Proof.
  split; [discriminate|].
  apply (compute_hash_key_order Demo.block1 (set_data Demo.bob_from_alice Demo.block1));
    try reflexivity.
  - split; [|cbn; tauto].
    cbn [map fst].
    repeat (apply NoDup_cons; split;
            [rewrite list_elem_of_In; cbn; intuition discriminate|]).
    apply NoDup_nil_2.
  - apply (JE_dict _ (rev [ ("from", JString "Alice"); ("to", JString "Bob");
                            ("amount", JInt 10) ])).
    + apply Permutation_rev.
    + cbn [rev app]. repeat constructor.
Defined.

(** ** More on chains built by the program *)

Lemma add_block_Raise (fuel : nat) (now : float) (payload : json)
      (self : Blockchain) (e : exn) :
  add_block fuel now payload self = Raise e -> chain self = [].
Proof.
  unfold add_block, proof_of_work. intros H.
  destruct (last_block self) as [tail|e'|] eqn:Htail;
    cbn [mbind outcome_bind bind] in H.
  - pose proof (pow_loop_spec (str_mul "0" (difficulty self)) fuel
                  (Block_init now (len (chain self)) payload (hash tail))) as Hpow.
    destruct (pow_loop fuel _ _) as [[b' h]|e'|];
      cbn [mbind outcome_bind bind] in H; [discriminate|contradiction|discriminate].
  - exact (last_block_Raise self e' Htail).
  - discriminate.
Qed.

Lemma constructed_lookup (self : Blockchain) :
  constructed self ->
  forall (i : nat) (b : Block),
    chain self !! i = Some b ->
    index b = Z.of_nat i /\ 0 <= nonce b /\ hash b = compute_hash b.
Proof.
  induction 1 as [now d|self fuel now payload self' block Hc IH Hadd]; intros i b Hb.
  - destruct i as [|i]; [|destruct i; discriminate Hb].
    injection Hb as <-. repeat split. cbn. lia.
  - apply add_block_Ret in Hadd.
    destruct Hadd as (tail & n & _ & _ & Hblock & _ & Hself). subst self'.
    cbn [set_chain chain] in Hb.
    apply lookup_app_Some in Hb. destruct Hb as [Hb|[Hlen Hb]].
    + exact (IH i b Hb).
    + destruct (i - length (chain self))%nat as [|k] eqn:Hk; [|destruct k; discriminate Hb].
      injection Hb as <-.
      destruct (pow_steps_frame n (candidate now payload self tail))
        as (Hi & _ & _ & _ & Hn).
      rewrite <- Hblock in Hi, Hn.
      split; [|split].
      * rewrite Hi. unfold candidate, len. cbn. lia.
      * rewrite Hn. unfold candidate. cbn. lia.
      * subst block. apply pow_steps_hash, Block_init_hash.
Qed.

(** X1. Every block of a chain built by the program, the first one included,
    has its position as index, a nonce that is not negative, and stores
    the hash of its own fields. *)
Theorem constructed_blocks_invariant (self : Blockchain) :
  constructed self ->
  forall (i : nat) (b : Block),
    chain self !! i = Some b ->
    index b = Z.of_nat i /\ 0 <= nonce b /\ hash b = compute_hash b.
Proof. exact (constructed_lookup self). Qed.

Lemma constructed_blocks_invariant_witness :
  constructed Demo.chain2
  /\ index Demo.block2 = 2 /\ 0 <= nonce Demo.block2
  /\ hash Demo.block2 = compute_hash Demo.block2
  /\ hash Demo.genesis = compute_hash Demo.genesis.
Proof.
  split; [exact demo_constructed|].
  destruct (constructed_blocks_invariant Demo.chain2 demo_constructed 2 Demo.block2 eq_refl)
    as (Hi & Hn & Hh).
  destruct (constructed_blocks_invariant Demo.chain2 demo_constructed 0 Demo.genesis eq_refl)
    as (_ & _ & Hg).
  repeat split; assumption.
Defined.

(** X2. A chain built by the program is never empty, so on it [last_block]
    returns and [add_block] does not raise: it returns or is still
    mining. *)
Theorem constructed_never_raises (self : Blockchain) :
  constructed self ->
  (exists tail : Block, last_block self = Ret tail)
  /\ forall (fuel : nat) (now : float) (payload : json) (e : exn),
       add_block fuel now payload self <> Raise e.
Proof.
  intros Hc. destruct (constructed_nonempty self Hc) as (t & rest & Hchain).
  split.
  - unfold last_block. rewrite Hchain.
    destruct rest as [|b rest] using rev_ind.
    + eexists. reflexivity.
    + exists b. rewrite app_comm_cons. apply getitem_last.
  - intros fuel now payload e Hraise.
    apply add_block_Raise in Hraise. rewrite Hchain in Hraise. discriminate.
Qed.

Lemma constructed_never_raises_witness :
  constructed Demo.chain2
  /\ last_block Demo.chain2 = Ret Demo.block2
  /\ add_block 0 Demo.t2 Demo.alice_to_bob Demo.chain2 <> Raise IndexError.
Proof.
  split; [exact demo_constructed|]. split; [reflexivity|].
  apply (constructed_never_raises Demo.chain2 demo_constructed).
Defined.

(** X3. When [add_block] returns, [is_valid] answers on the new chain what it
    answered on the old one: the block added passes its checks, a valid
    chain stays valid, and a chain that was not valid is not repaired. *)
Theorem add_block_keeps_verdict (fuel : nat) (now : float) (payload : json)
        (self self' : Blockchain) (block : Block) :
  add_block fuel now payload self = Ret (self', block) ->
  is_valid self' = is_valid self.
Proof.
  intros Hadd. apply add_block_Ret in Hadd.
  destruct Hadd as (tail & n & Htail & _ & Hblock & Hp & Hself). subst self'.
  apply last_block_Ret in Htail.
  rewrite !is_valid_chain_ok. f_equal. cbn [set_chain chain difficulty].
  destruct (chain self) as [|g rest]; [discriminate Htail|].
  cbn [app chain_ok]. rewrite links_ok_snoc.
  assert (Hdef : default g (last rest) = tail).
  { rewrite last_cons in Htail. destruct (last rest); cbn; congruence. }
  rewrite Hdef.
  assert (Hchk : block_checks (str_mul "0" (difficulty self)) tail block = true).
  { apply block_checks_true.
    destruct (pow_steps_frame n (candidate now payload self tail))
      as (_ & _ & _ & Hprev & _).
    rewrite <- Hblock in Hprev.
    split; [|split; [exact Hprev|exact Hp]].
    subst block. apply pow_steps_hash, Block_init_hash. }
  rewrite Hchk. apply andb_true_r.
Qed.

Lemma add_block_keeps_verdict_witness :
  add_block 0 Demo.t2 Demo.bob_to_charlie Demo.chain1 = Ret (Demo.chain2, Demo.block2)
  /\ is_valid Demo.chain2 = is_valid Demo.chain1.
Proof.
  split; [exact demo_add_block2|].
  exact (add_block_keeps_verdict _ _ _ _ _ _ demo_add_block2).
Defined.

(** ** More on [proof_of_work] *)

(** [compute_hash] reads the five fields it lists and nothing else. *)
Lemma compute_hash_fields (b1 b2 : Block) :
  index b1 = index b2 -> timestamp b1 = timestamp b2 -> data b1 = data b2 ->
  previous_hash b1 = previous_hash b2 -> nonce b1 = nonce b2 ->
  compute_hash b1 = compute_hash b2.
Proof.
  destruct b1, b2. cbn. intros -> -> -> -> ->. reflexivity.
Qed.

Lemma pow_steps_nonce_hash (m : nat) (b : Block) :
  (1 <= m)%nat ->
  hash (Nat.iter m pow_step b) = compute_hash (set_nonce (nonce b + Z.of_nat m) b).
Proof.
  intros Hm. destruct m as [|m]; [lia|].
  destruct (pow_steps_frame (S m) b) as (Hi & Ht & Hd & Hp & Hn).
  rewrite Nat.iter_succ at 1. rewrite pow_step_hash. rewrite <- Nat.iter_succ.
  apply compute_hash_fields; assumption.
Qed.

(** X4. [proof_of_work] searches upwards from the nonce the block has.
    The block it returns stores a hash with the prefix, which is the value
    returned; the index, the time, the payload and the previous hash are
    left alone; and the nonce it stops at is the first one, at or above
    the nonce on entry, at which the block has a hash with the prefix: at
    the nonce on entry, when the search went on, the stored hash had not
    the prefix, and at no nonce in between has the hash of the fields. *)
Theorem proof_of_work_first_nonce (fuel : nat) (self : Blockchain)
        (b b' : Block) (h : string) :
  proof_of_work fuel self b = Ret (b', h) ->
  startswith (hash b') (str_mul "0" (difficulty self)) = true
  /\ h = hash b'
  /\ index b' = index b /\ timestamp b' = timestamp b
  /\ data b' = data b /\ previous_hash b' = previous_hash b
  /\ nonce b <= nonce b' <= nonce b + Z.of_nat fuel
  /\ (nonce b' = nonce b -> b' = b)
  /\ (nonce b < nonce b' ->
      startswith (hash b) (str_mul "0" (difficulty self)) = false
      /\ hash b' = compute_hash (set_nonce (nonce b') b))
  /\ (forall k : Z,
        nonce b < k < nonce b' ->
        startswith (compute_hash (set_nonce k b)) (str_mul "0" (difficulty self))
        = false).
Proof.
  intros Hpow.
  pose proof (pow_loop_spec (str_mul "0" (difficulty self)) fuel b) as Hspec.
  unfold proof_of_work in Hpow. rewrite Hpow in Hspec.
  destruct Hspec as (n & Hn & Hb' & Hh & Hsealed & Hfirst).
  destruct (pow_steps_frame n b) as (Hi & Ht & Hd & Hp & Hnonce).
  rewrite <- Hb' in Hi, Ht, Hd, Hp, Hnonce.
  do 6 (split; [assumption|]).
  split; [lia|]. split; [|split].
  - intros Heq. assert (n = 0%nat) by lia. subst n. exact Hb'.
  - intros Hlt. split.
    + apply (Hfirst 0%nat). lia.
    + rewrite Hb' at 1. rewrite pow_steps_nonce_hash by lia.
      f_equal. f_equal. lia.
  - intros k Hk.
    specialize (Hfirst (Z.to_nat (k - nonce b))).
    rewrite pow_steps_nonce_hash in Hfirst by lia.
    replace (nonce b + Z.of_nat (Z.to_nat (k - nonce b))) with k in Hfirst by lia.
    apply Hfirst. lia.
Qed.

Lemma proof_of_work_first_nonce_witness :
  proof_of_work 2 Demo.chain0 Demo.candidate1 = Ret (Demo.block1, hash Demo.block1)
  /\ nonce Demo.candidate1 = 0 /\ nonce Demo.block1 = 2
  /\ startswith (hash Demo.block1) "0000" = true
  /\ startswith (hash Demo.candidate1) "0000" = false
  /\ startswith (compute_hash (set_nonce 1 Demo.candidate1)) "0000" = false.
Proof.
  assert (Hpow : proof_of_work 2 Demo.chain0 Demo.candidate1
                 = Ret (Demo.block1, hash Demo.block1))
    by (vm_compute; reflexivity).
  split; [exact Hpow|]. split; [reflexivity|]. split; [reflexivity|].
  destruct (proof_of_work_first_nonce 2 Demo.chain0 _ _ _ Hpow)
    as (Hsealed & _ & _ & _ & _ & _ & _ & _ & Hentry & Hbelow).
  split; [exact Hsealed|].
  split.
  - apply Hentry. cbn. lia.
  - apply (Hbelow 1). cbn. lia.
Defined.

(** X5. Mining a block that [proof_of_work] has returned does nothing more:
    the second call returns the same block and the same hash at once. *)
Theorem proof_of_work_idempotent (fuel fuel' : nat) (self : Blockchain)
        (b b' : Block) (h : string) :
  proof_of_work fuel self b = Ret (b', h) ->
  proof_of_work fuel' self b' = Ret (b', h).
Proof.
  intros Hpow.
  pose proof (pow_loop_spec (str_mul "0" (difficulty self)) fuel b) as Hspec.
  unfold proof_of_work in *. rewrite Hpow in Hspec.
  destruct Hspec as (n & _ & _ & Hh & Hp & _). subst h.
  apply pow_loop_hit. exact Hp.
Qed.

Lemma proof_of_work_idempotent_witness :
  proof_of_work 2 Demo.chain0 Demo.candidate1 = Ret (Demo.block1, hash Demo.block1)
  /\ proof_of_work 0 Demo.chain0 Demo.block1 = Ret (Demo.block1, hash Demo.block1).
Proof.
  assert (Hpow : proof_of_work 2 Demo.chain0 Demo.candidate1
                 = Ret (Demo.block1, hash Demo.block1))
    by (vm_compute; reflexivity).
  split; [exact Hpow|].
  exact (proof_of_work_idempotent 2 0 _ _ _ _ Hpow).
Defined.

Lemma startswith_empty (s : string) : startswith s EmptyString = true.
Proof. destruct s; reflexivity. Qed.

Lemma str_mul_nonpositive (s : string) (n : Z) : n <= 0 -> str_mul s n = EmptyString.
Proof. intros H. unfold str_mul. replace (Z.to_nat n) with 0%nat by lia. reflexivity. Qed.

(** X6. With a [difficulty] of zero or less the prefix is empty: every hash
    has it, [proof_of_work] returns any block as it is, and [add_block]
    adds the block it built with nonce 0 without a turn of the loop. *)
Theorem nonpositive_difficulty_no_mining (self : Blockchain) :
  difficulty self <= 0 ->
  (forall (fuel : nat) (b : Block), proof_of_work fuel self b = Ret (b, hash b))
  /\ (forall (fuel : nat) (now : float) (payload : json) (tail : Block),
        last_block self = Ret tail ->
        add_block fuel now payload self
        = Ret (set_chain (chain self ++ [candidate now payload self tail])%list self,
               candidate now payload self tail)
        /\ nonce (candidate now payload self tail) = 0).
Proof.
  intros Hd.
  assert (Hpow : forall (fuel : nat) (b : Block),
             proof_of_work fuel self b = Ret (b, hash b)).
  { intros fuel b. apply pow_loop_hit.
    rewrite str_mul_nonpositive by exact Hd. apply startswith_empty. }
  split; [exact Hpow|].
  intros fuel now payload tail Htail. split; [|reflexivity].
  unfold add_block. rewrite Htail. cbn [mbind outcome_bind bind].
  fold (candidate now payload self tail). rewrite Hpow. reflexivity.
Qed.

Lemma nonpositive_difficulty_no_mining_witness :
  difficulty (set_difficulty 0 Demo.chain0) <= 0
  /\ add_block 0 Demo.t1 Demo.alice_to_bob (set_difficulty 0 Demo.chain0)
     = Ret (mkBlockchain [Demo.genesis; Demo.candidate1] 0, Demo.candidate1).
Proof.
  assert (Hd : difficulty (set_difficulty 0 Demo.chain0) <= 0) by (cbn; lia).
  split; [exact Hd|].
  destruct (nonpositive_difficulty_no_mining _ Hd) as [_ Hadd].
  destruct (Hadd 0%nat Demo.t1 Demo.alice_to_bob Demo.genesis eq_refl) as [H _].
  rewrite H. vm_compute. reflexivity.
Defined.

(** ** More on [is_valid] *)

Lemma prefix_repeat_le (c : ascii) (m : nat) :
  forall (n : nat) (s : string),
    (m <= n)%nat ->
    String.prefix (repeat_string (String c EmptyString) n) s = true ->
    String.prefix (repeat_string (String c EmptyString) m) s = true.
Proof.
  induction m as [|m IH]; intros n s Hle H.
  - destruct s; reflexivity.
  - destruct n as [|n]; [lia|].
    cbn [repeat_string String.append] in *.
    destruct s as [|x s]; cbn [String.prefix] in *; [discriminate|].
    destruct (ascii_dec c x); [|discriminate].
    apply (IH n); [lia|exact H].
Qed.

Lemma startswith_lower (s : string) (d d' : Z) :
  d' <= d ->
  startswith s (str_mul "0" d) = true -> startswith s (str_mul "0" d') = true.
Proof.
  intros Hle. unfold startswith, str_mul. apply prefix_repeat_le. lia.
Qed.

Lemma links_ok_lower (d d' : Z) (rest : list Block) :
  d' <= d ->
  forall previous : Block,
    links_ok (str_mul "0" d) previous rest = true ->
    links_ok (str_mul "0" d') previous rest = true.
Proof.
  intros Hle. induction rest as [|current rest IH]; intros previous; cbn [links_ok].
  - reflexivity.
  - rewrite !andb_true_iff, !block_checks_true.
    intros [(Hh & Hp & Hs) Hrest].
    split; [|exact (IH current Hrest)].
    split; [exact Hh|]. split; [exact Hp|].
    exact (startswith_lower _ d d' Hle Hs).
Qed.

(** X7. A chain that [is_valid] accepts at one [difficulty] is accepted at
    every lower one. *)
Theorem is_valid_lower_difficulty (blocks : list Block) (d d' : Z) :
  d' <= d ->
  is_valid (mkBlockchain blocks d) = Ret true ->
  is_valid (mkBlockchain blocks d') = Ret true.
Proof.
  intros Hle. rewrite !is_valid_chain_ok. cbn [chain difficulty].
  intros H. injection H as H. f_equal.
  destruct blocks as [|g rest]; [reflexivity|].
  exact (links_ok_lower d d' rest Hle g H).
Qed.

Lemma is_valid_lower_difficulty_witness :
  is_valid (mkBlockchain (chain Demo.chain2) 4) = Ret true
  /\ is_valid (mkBlockchain (chain Demo.chain2) 3) = Ret true.
Proof.
  assert (H : is_valid (mkBlockchain (chain Demo.chain2) 4) = Ret true)
    by (vm_compute; reflexivity).
  split; [exact H|].
  apply (is_valid_lower_difficulty _ 4 3); [lia|exact H].
Defined.

(** X8. [is_valid] looks at neighbours only: every run of consecutive blocks
    of a chain it accepts is a chain it accepts.  So it does not tell
    that blocks were cut off the end of a chain, or off its start. *)
Theorem is_valid_segment (before segment after : list Block) (d : Z) :
  is_valid (mkBlockchain (before ++ segment ++ after)%list d) = Ret true ->
  is_valid (mkBlockchain segment d) = Ret true.
Proof.
  rewrite !is_valid_chain_ok. cbn [chain difficulty].
  intros H. injection H as H. f_equal.
  apply chain_ok_lookup. intros i c p Hi Hc Hp.
  apply (proj1 (chain_ok_lookup _ _) H (length before + i)%nat c p); [lia| |].
  - rewrite lookup_app_r by lia.
    replace (length before + i - length before)%nat with i by lia.
    apply lookup_app_l_Some. exact Hc.
  - rewrite lookup_app_r by lia.
    replace (length before + i - 1 - length before)%nat with (i - 1)%nat by lia.
    apply lookup_app_l_Some. exact Hp.
Qed.

Lemma is_valid_segment_witness :
  is_valid (mkBlockchain ([Demo.genesis] ++ [Demo.block1] ++ [Demo.block2])%list 4)
  = Ret true
  /\ is_valid (mkBlockchain [Demo.block1] 4) = Ret true
  /\ is_valid (mkBlockchain [Demo.block1; Demo.block2] 4) = Ret true
  /\ is_valid (mkBlockchain [Demo.genesis; Demo.block1] 4) = Ret true.
Proof.
  assert (H : is_valid (mkBlockchain
                          ([Demo.genesis] ++ [Demo.block1] ++ [Demo.block2])%list 4)
              = Ret true) by (vm_compute; reflexivity).
  split; [exact H|]. split; [|split].
  - exact (is_valid_segment [Demo.genesis] [Demo.block1] [Demo.block2] 4 H).
  - exact (is_valid_segment [Demo.genesis] [Demo.block1; Demo.block2] [] 4 H).
  - exact (is_valid_segment [] [Demo.genesis; Demo.block1] [Demo.block2] 4 H).
Defined.

Lemma is_valid_true_checks (self : Blockchain) (i : nat) (current previous : Block) :
  is_valid self = Ret true ->
  (1 <= i)%nat ->
  chain self !! i = Some current ->
  chain self !! (i - 1)%nat = Some previous ->
  hash current = compute_hash current
  /\ previous_hash current = hash previous
  /\ startswith (hash current) (str_mul "0" (difficulty self)) = true.
Proof.
  rewrite is_valid_chain_ok. intros H Hi Hc Hp. injection H as H.
  apply block_checks_true.
  exact (proj1 (chain_ok_lookup _ _) H i current previous Hi Hc Hp).
Qed.

Lemma is_valid_false_at (self : Blockchain) (i : nat) (current previous : Block) :
  (1 <= i)%nat ->
  chain self !! i = Some current ->
  chain self !! (i - 1)%nat = Some previous ->
  hash current <> compute_hash current \/ previous_hash current <> hash previous ->
  is_valid self = Ret false.
Proof.
  intros Hi Hc Hp Hbad. rewrite is_valid_chain_ok. f_equal.
  destruct (chain_ok _ (chain self)) eqn:Hok; [|reflexivity].
  pose proof (proj1 (chain_ok_lookup _ _) Hok i current previous Hi Hc Hp) as Hchk.
  apply block_checks_true in Hchk. destruct Hchk as (Hh & Hl & _).
  destruct Hbad as [Hbad|Hbad]; contradiction.
Qed.

(** X9. On a chain [is_valid] accepts, storing any other hash in a block at a
    position [i >= 1] makes [is_valid] return [False]: the stored hash is
    no longer the hash of the fields.  No property of SHA-256 is needed. *)
Theorem is_valid_detects_hash_tamper (self : Blockchain) (i : nat)
        (current : Block) (h : string) :
  is_valid self = Ret true ->
  (1 <= i)%nat ->
  chain self !! i = Some current ->
  h <> hash current ->
  is_valid (set_chain (<[i := set_hash h current]> (chain self)) self) = Ret false.
Proof.
  intros Hvalid Hi Hcur Hh.
  pose proof (lookup_lt_Some _ _ _ Hcur) as Hlt.
  destruct (lookup_lt_is_Some_2 (chain self) (i - 1)%nat) as [p Hp]; [lia|].
  destruct (is_valid_true_checks self i current p Hvalid Hi Hcur Hp) as (Hstored & _ & _).
  apply (is_valid_false_at _ i (set_hash h current) p Hi).
  - cbn [set_chain chain]. apply list_lookup_insert_eq. exact Hlt.
  - cbn [set_chain chain]. rewrite list_lookup_insert_ne by lia. exact Hp.
  - left. rewrite compute_hash_set_hash. cbn [set_hash hash]. congruence.
Qed.

Lemma is_valid_detects_hash_tamper_witness :
  is_valid Demo.chain2 = Ret true
  /\ is_valid (set_chain (<[2%nat := set_hash (hash Demo.block1) Demo.block2]>
                            (chain Demo.chain2)) Demo.chain2) = Ret false.
Proof.
  assert (Hvalid : is_valid Demo.chain2 = Ret true) by (vm_compute; reflexivity).
  split; [exact Hvalid|].
  apply (is_valid_detects_hash_tamper Demo.chain2 2 Demo.block2 _ Hvalid);
    [lia|reflexivity|discriminate].
Defined.

(** X10. On a chain [is_valid] accepts, putting at a position [i >= 1] a
    block with another [previous_hash] makes [is_valid] return [False],
    whatever the other fields of the new block are: its stored hash may be
    left as it was, computed again from the changed fields, or mined
    again.  The link to the block before is broken in each case. *)
Theorem is_valid_detects_previous_hash_tamper (self : Blockchain) (i : nat)
        (current forged : Block) :
  is_valid self = Ret true ->
  (1 <= i)%nat ->
  chain self !! i = Some current ->
  previous_hash forged <> previous_hash current ->
  is_valid (set_chain (<[i := forged]> (chain self)) self) = Ret false.
Proof.
  intros Hvalid Hi Hcur Hph.
  pose proof (lookup_lt_Some _ _ _ Hcur) as Hlt.
  destruct (lookup_lt_is_Some_2 (chain self) (i - 1)%nat) as [p Hp]; [lia|].
  destruct (is_valid_true_checks self i current p Hvalid Hi Hcur Hp) as (_ & Hlink & _).
  apply (is_valid_false_at _ i forged p Hi).
  - cbn [set_chain chain]. apply list_lookup_insert_eq. exact Hlt.
  - cbn [set_chain chain]. rewrite list_lookup_insert_ne by lia. exact Hp.
  - right. congruence.
Qed.

Lemma is_valid_detects_previous_hash_tamper_witness :
  is_valid Demo.chain2 = Ret true
  /\ is_valid (set_chain (<[2%nat := set_previous_hash (hash Demo.genesis) Demo.block2]>
                            (chain Demo.chain2)) Demo.chain2) = Ret false
  /\ is_valid (set_chain
                 (<[2%nat := Block_init Demo.t2 2 Demo.bob_to_charlie (hash Demo.genesis)]>
                    (chain Demo.chain2)) Demo.chain2) = Ret false.
Proof.
  assert (Hvalid : is_valid Demo.chain2 = Ret true) by (vm_compute; reflexivity).
  split; [exact Hvalid|]. split.
  - apply (is_valid_detects_previous_hash_tamper Demo.chain2 2 Demo.block2 _ Hvalid);
      [lia|reflexivity|discriminate].
  - apply (is_valid_detects_previous_hash_tamper Demo.chain2 2 Demo.block2 _ Hvalid);
      [lia|reflexivity|discriminate].
Defined.

(** X11. The first block is guarded by the link of the second: on a chain of
    two blocks or more that [is_valid] accepts, putting in first place a
    block that stores another hash makes [is_valid] return [False]. *)
Theorem is_valid_detects_genesis_hash_tamper (d : Z) (genesis genesis' second : Block)
        (rest : list Block) :
  is_valid (mkBlockchain (genesis :: second :: rest) d) = Ret true ->
  hash genesis' <> hash genesis ->
  is_valid (mkBlockchain (genesis' :: second :: rest) d) = Ret false.
Proof.
  intros Hvalid Hh.
  destruct (is_valid_true_checks _ 1 second genesis Hvalid (le_n 1) eq_refl eq_refl)
    as (_ & Hlink & _).
  apply (is_valid_false_at (mkBlockchain (genesis' :: second :: rest) d)
           1 second genesis' (le_n 1) eq_refl eq_refl).
  right. congruence.
Qed.

Lemma is_valid_detects_genesis_hash_tamper_witness :
  is_valid (mkBlockchain (Demo.genesis :: Demo.block1 :: [Demo.block2]) 4) = Ret true
  /\ is_valid (mkBlockchain (set_hash (compute_hash Demo.forged_genesis)
                                      Demo.forged_genesis
                             :: Demo.block1 :: [Demo.block2]) 4) = Ret false.
Proof.
  assert (Hvalid : is_valid (mkBlockchain (Demo.genesis :: Demo.block1 :: [Demo.block2]) 4)
                   = Ret true) by (vm_compute; reflexivity).
  split; [exact Hvalid|].
  apply (is_valid_detects_genesis_hash_tamper 4 Demo.genesis _ _ _ Hvalid).
  vm_compute. discriminate.
Defined.

(** ** The shape of a hash *)

Lemma hex_digit_is_hex (x : Z) : is_hex_digit (SHA256.hex_digit (Z.land x 0xF)) = true.
Proof.
  assert (H : 0 <= Z.land x 0xF < 16).
  { change 0xF with (Z.ones 4). rewrite Z.land_ones by lia.
    apply Z.mod_pos_bound. lia. }
  set (v := Z.land x 0xF) in *.
  assert (Hv : v = 0 \/ v = 1 \/ v = 2 \/ v = 3 \/ v = 4 \/ v = 5 \/ v = 6 \/ v = 7
               \/ v = 8 \/ v = 9 \/ v = 10 \/ v = 11 \/ v = 12 \/ v = 13 \/ v = 14
               \/ v = 15) by lia.
  repeat (destruct Hv as [->|Hv]; [reflexivity|]). rewrite Hv. reflexivity.
Qed.

Lemma hex_of_word_length (n : nat) :
  forall (x : Z) (acc : string),
    String.length (SHA256.hex_of_word n x acc) = (n + String.length acc)%nat.
Proof.
  induction n as [|n IH]; intros x acc; cbn [SHA256.hex_of_word].
  - reflexivity.
  - rewrite IH. cbn [String.length]. lia.
Qed.

Lemma hex_of_word_chars (n : nat) :
  forall (x : Z) (acc : string),
    all_chars is_hex_digit acc = true ->
    all_chars is_hex_digit (SHA256.hex_of_word n x acc) = true.
Proof.
  induction n as [|n IH]; intros x acc Hacc; cbn [SHA256.hex_of_word].
  - exact Hacc.
  - apply IH. cbn [all_chars]. rewrite hex_digit_is_hex, Hacc. reflexivity.
Qed.

Lemma sha256_blocks_length (n : nat) :
  forall h ws : list Z, length h = 8%nat -> length (SHA256.blocks n h ws) = 8%nat.
Proof.
  induction n as [|n IH]; intros h ws Hh; cbn [SHA256.blocks].
  - exact Hh.
  - destruct ws as [|w ws]; [exact Hh|]. apply IH. reflexivity.
Qed.

Lemma hexdigest_words (ws : list Z) :
  String.length (fold_right (fun w acc => SHA256.hex_of_word 8 w acc) EmptyString ws)
  = (8 * length ws)%nat
  /\ all_chars is_hex_digit
       (fold_right (fun w acc => SHA256.hex_of_word 8 w acc) EmptyString ws) = true.
Proof.
  induction ws as [|w ws [IHl IHc]]; [split; reflexivity|].
  cbn [fold_right]. split.
  - rewrite hex_of_word_length, IHl. cbn [length]. lia.
  - apply hex_of_word_chars. exact IHc.
Qed.

Lemma hexdigest_shape (msg : list Z) :
  String.length (SHA256.hexdigest msg) = 64%nat
  /\ all_chars is_hex_digit (SHA256.hexdigest msg) = true.
Proof.
  unfold SHA256.hexdigest.
  destruct (hexdigest_words (SHA256.digest msg)) as [Hl Hc].
  split; [|exact Hc].
  rewrite Hl. unfold SHA256.digest. rewrite sha256_blocks_length; reflexivity.
Qed.

(** X12. [compute_hash] returns 64 lower-case hexadecimal digits, whatever the
    block holds. *)
Theorem compute_hash_hex64 (b : Block) :
  String.length (compute_hash b) = 64%nat
  /\ all_chars is_hex_digit (compute_hash b) = true.
Proof. apply hexdigest_shape. Qed.

Lemma prefix_length (p : string) :
  forall s : string,
    String.prefix p s = true -> (String.length p <= String.length s)%nat.
Proof.
  induction p as [|c p IH]; intros s H; cbn [String.length].
  - lia.
  - destruct s as [|x s]; cbn [String.prefix] in H; [discriminate|].
    destruct (ascii_dec c x); [|discriminate].
    cbn [String.length]. specialize (IH s H). lia.
Qed.

Lemma repeat_string_length (c : ascii) (n : nat) :
  String.length (repeat_string (String c EmptyString) n) = n.
Proof. induction n as [|n IH]; cbn; [reflexivity|]. rewrite IH. reflexivity. Qed.

Lemma startswith_too_long (s : string) (d : Z) :
  Z.of_nat (String.length s) < d -> startswith s (str_mul "0" d) = false.
Proof.
  intros Hlt. destruct (startswith s (str_mul "0" d)) eqn:H; [|reflexivity].
  apply prefix_length in H. unfold str_mul in H.
  rewrite repeat_string_length in H. lia.
Qed.

(** X13. No hash has more than 64 characters, so with a [difficulty] above 64
    mining cannot end: on a chain that has a block, [add_block] is still
    running after any number of turns. *)
Theorem add_block_never_returns_above_64 (self : Blockchain) :
  64 < difficulty self ->
  forall (fuel : nat) (now : float) (payload : json) (tail : Block),
    last_block self = Ret tail ->
    add_block fuel now payload self = Timeout.
Proof.
  intros Hd fuel now payload tail Htail.
  unfold add_block, proof_of_work. rewrite Htail. cbn [mbind outcome_bind bind].
  pose proof (pow_loop_spec (str_mul "0" (difficulty self)) fuel
                (Block_init now (len (chain self)) payload (hash tail))) as Hspec.
  destruct (pow_loop fuel _ _) as [[b' h]|e|]; [|contradiction|reflexivity].
  exfalso. destruct Hspec as (n & _ & Hb' & _ & Hp & _).
  rewrite startswith_too_long in Hp; [discriminate|].
  subst b'. rewrite pow_steps_hash by apply Block_init_hash.
  unfold compute_hash. rewrite (proj1 (hexdigest_shape _)). lia.
Qed.

Lemma add_block_never_returns_above_64_witness :
  64 < difficulty (set_difficulty 65 Demo.chain0)
  /\ add_block 3 Demo.t1 Demo.alice_to_bob (set_difficulty 65 Demo.chain0) = Timeout.
Proof.
  assert (Hd : 64 < difficulty (set_difficulty 65 Demo.chain0)) by (cbn; lia).
  split; [exact Hd|].
  exact (add_block_never_returns_above_64 _ Hd 3 Demo.t1 Demo.alice_to_bob
           Demo.genesis eq_refl).
Defined.



(** ** Tampering with the other fields *)

(** [int(repr(z)) == z]. *)
Lemma int_parse_repr (z : Z) : int_parse (int_repr z) = Some z.
Proof.
  unfold int_parse, int_repr.
  rewrite NilZero.isi.
  - cbn [option_map]. rewrite DecimalZ.of_to. reflexivity.
  - destruct z as [|p|p]; cbn; try discriminate.
    intros H. injection H as H. exact (DecimalPos.Unsigned.to_uint_nonnil p H).
  - destruct z as [|p|p]; cbn; try discriminate.
    intros H. injection H as H. exact (DecimalPos.Unsigned.to_uint_nonnil p H).
Qed.

Lemma int_repr_inj (z z' : Z) : int_repr z = int_repr z' -> z = z'.
Proof.
  intros H. apply (f_equal int_parse) in H.
  rewrite !int_parse_repr in H. congruence.
Qed.

Ltac strip_heads H := repeat (apply string_app_inv_head in H).

Lemma block_string_set_nonce (n : Z) (b : Block) :
  block_string (set_nonce n b) = block_string b -> n = nonce b.
Proof.
  unfold block_string. intros H. apply encode_inj in H.
  rewrite !dumps_block_dict in H. unfold block_text_tail in H.
  cbn [set_nonce index timestamp data previous_hash nonce] in H.
  strip_heads H. apply string_app_inv_tail in H. exact (int_repr_inj _ _ H).
Qed.

Lemma block_string_set_index (i : Z) (b : Block) :
  block_string (set_index i b) = block_string b -> i = index b.
Proof.
  unfold block_string. intros H. apply encode_inj in H.
  rewrite !dumps_block_dict in H. unfold block_text_tail in H.
  cbn [set_index index timestamp data previous_hash nonce] in H.
  strip_heads H. apply string_app_inv_tail in H. exact (int_repr_inj _ _ H).
Qed.

Lemma block_string_set_timestamp (t : float) (b : Block) :
  block_string (set_timestamp t b) = block_string b -> t = timestamp b.
Proof.
  unfold block_string. intros H. apply encode_inj in H.
  rewrite !dumps_block_dict in H. unfold block_text_tail in H.
  cbn [set_timestamp index timestamp data previous_hash nonce] in H.
  strip_heads H. apply string_app_inv_tail in H.
  destruct t as [t], (timestamp b) as [t']. cbn in H. congruence.
Qed.

(** A block that stores the hash of another block's fields, hashed from
    other bytes, does not store the hash of its own, unless the two texts
    collide. *)
Lemma forged_hash_mismatch (current forged : Block) :
  hash current = compute_hash current ->
  hash forged = hash current ->
  block_string forged <> block_string current ->
  ~ sha256_collision (block_string forged) (block_string current) ->
  hash forged <> compute_hash forged.
Proof.
  intros Hstored Hsame Hne Hsha Hforged.
  apply Hsha. split; [exact Hne|].
  unfold compute_hash in *. congruence.
Qed.

(** X15. On a chain [is_valid] accepts, changing the nonce, the index or the
    time of a block at a position [i >= 1], and leaving its stored hash as
    it is, makes [is_valid] return [False].  As for the payload, the old
    and the new text hashed, which differ, are taken not to be a collision
    of SHA-256. *)
Theorem is_valid_detects_field_tamper (self : Blockchain) (i : nat)
        (current forged : Block) :
  is_valid self = Ret true ->
  (1 <= i)%nat ->
  chain self !! i = Some current ->
  (exists n : Z, n <> nonce current /\ forged = set_nonce n current)
  \/ (exists k : Z, k <> index current /\ forged = set_index k current)
  \/ (exists t : float, t <> timestamp current /\ forged = set_timestamp t current) ->
  ~ sha256_collision (block_string forged) (block_string current) ->
  is_valid (set_chain (<[i := forged]> (chain self)) self) = Ret false.
Proof.
  intros Hvalid Hi Hcur Hchange Hsha.
  pose proof (lookup_lt_Some _ _ _ Hcur) as Hlt.
  destruct (lookup_lt_is_Some_2 (chain self) (i - 1)%nat) as [p Hp]; [lia|].
  destruct (is_valid_true_checks self i current p Hvalid Hi Hcur Hp) as (Hstored & _ & _).
  apply (is_valid_false_at _ i forged p Hi).
  - cbn [set_chain chain]. apply list_lookup_insert_eq. exact Hlt.
  - cbn [set_chain chain]. rewrite list_lookup_insert_ne by lia. exact Hp.
  - left. apply (forged_hash_mismatch current forged Hstored); [| |exact Hsha].
    + destruct Hchange as [(n & _ & ->)|[(k & _ & ->)|(t & _ & ->)]]; reflexivity.
    + destruct Hchange as [(n & Hn & ->)|[(k & Hk & ->)|(t & Ht & ->)]]; intros Heq.
      * exact (Hn (block_string_set_nonce n current Heq)).
      * exact (Hk (block_string_set_index k current Heq)).
      * exact (Ht (block_string_set_timestamp t current Heq)).
Qed.

Lemma is_valid_detects_field_tamper_witness :
  is_valid Demo.chain2 = Ret true
  /\ ~ sha256_collision (block_string (set_nonce 3 Demo.block1))
                        (block_string Demo.block1)
  /\ is_valid (set_chain (<[1%nat := set_nonce 3 Demo.block1]> (chain Demo.chain2))
                         Demo.chain2) = Ret false.
Proof.
  assert (Hvalid : is_valid Demo.chain2 = Ret true) by (vm_compute; reflexivity).
  assert (Hsha : ~ sha256_collision (block_string (set_nonce 3 Demo.block1))
                                    (block_string Demo.block1)).
  { intros [_ Hsame]. vm_compute in Hsame. discriminate Hsame. }
  split; [exact Hvalid|]. split; [exact Hsha|].
  apply (is_valid_detects_field_tamper Demo.chain2 1 Demo.block1 _ Hvalid (le_n 1) eq_refl);
    [|exact Hsha].
  left. exists 3. split; [discriminate|reflexivity].
Defined.

(** ** The script *)

Lemma dumps_changed_amount :
  dumps Demo.alice_to_bob_999 <> dumps Demo.alice_to_bob.
Proof. vm_compute. discriminate. Qed.

(** X16. What a run of the script prints.  It never ends in an exception.  If
    both minings end, it lists three blocks, prints [True] for the chain
    as built and then, after the amount of the first payment is set to
    999, [False]; the old and the new text hashed for that block are
    taken not to be a collision of SHA-256.  It does not get that far
    only while one of the two minings has not ended. *)
Theorem main_prints_true_then_false (fuel : nat) (t0 t1 t2 : float) :
  match Script.main fuel t0 t1 t2 with
  | Script.Finished r =>
      exists g b1 b2 : Block,
        Script.listed r = [g; b1; b2]
        /\ data b1 = Demo.alice_to_bob
        /\ Script.valid_before r = true
        /\ (~ sha256_collision (block_string (set_data Demo.alice_to_bob_999 b1))
                               (block_string b1) ->
            Script.valid_after r = false)
  | Script.Crashed _ => False
  | Script.Mining =>
      add_block fuel t1 Demo.alice_to_bob (Blockchain_init t0) = Timeout
      \/ exists (c1 : Blockchain) (b1 : Block),
           add_block fuel t1 Demo.alice_to_bob (Blockchain_init t0) = Ret (c1, b1)
           /\ add_block fuel t2 Demo.bob_to_charlie c1 = Timeout
  end.
Proof.
  unfold Script.main.
  change (JDict [ ("from", JString "Alice"); ("to", JString "Bob"); ("amount", JInt 10) ])
    with Demo.alice_to_bob.
  change (JDict [ ("from", JString "Bob"); ("to", JString "Charlie"); ("amount", JInt 5) ])
    with Demo.bob_to_charlie.
  destruct (add_block fuel t1 Demo.alice_to_bob (Blockchain_init t0))
    as [[c1 b1]|e|] eqn:H1; cbn [Script.call mbind Script.run_bind fst].
  2:{ apply add_block_Raise in H1. discriminate H1. }
  2:{ left. reflexivity. }
  destruct (add_block fuel t2 Demo.bob_to_charlie c1)
    as [[c2 b2]|e|] eqn:H2; cbn [Script.call mbind Script.run_bind fst].
  2:{ apply add_block_Raise in H2. apply add_block_Ret in H1.
      destruct H1 as (_ & _ & _ & _ & _ & _ & ->). cbn [set_chain chain] in H2.
      apply app_eq_nil in H2. destruct H2 as [_ H2]. discriminate H2. }
  2:{ right. exists c1, b1. split; [reflexivity || exact H1|exact H2]. }
  assert (Hc1 : constructed c1).
  { apply (constructed_add _ _ _ _ _ _ (constructed_init t0 Blockchain_difficulty) H1). }
  assert (Hc2 : constructed c2) by exact (constructed_add _ _ _ _ _ _ Hc1 H2).
  pose proof H1 as H1'. pose proof H2 as H2'.
  apply add_block_Ret in H1'. destruct H1' as (tail1 & n1 & _ & _ & Hb1 & _ & Hs1).
  apply add_block_Ret in H2'. destruct H2' as (tail2 & n2 & _ & _ & _ & _ & Hs2).
  assert (Hchain : chain c2 = [Block_init t0 0 genesis_data "0"; b1; b2])
    by (subst c2 c1; reflexivity).
  assert (Hdata : data b1 = Demo.alice_to_bob).
  { rewrite Hb1. exact (proj1 (proj2 (proj2 (pow_steps_frame n1 _)))). }
  rewrite is_valid_chain_ok, (constructed_chain_ok c2 Hc2).
  cbn [Script.call mbind Script.run_bind].
  rewrite Hchain.
  change (getitem [Block_init t0 0 genesis_data "0"; b1; b2] 1) with (Ret b1).
  cbn [Script.call mbind Script.run_bind]. rewrite Hdata.
  change (Script.setitem Demo.alice_to_bob "amount" (JInt 999))
    with (Script.Finished Demo.alice_to_bob_999).
  cbn [mbind Script.run_bind]. rewrite is_valid_chain_ok.
  cbn [Script.call mbind Script.run_bind].
  exists (Block_init t0 0 genesis_data "0"), b1, b2.
  cbn [Script.listed Script.valid_before Script.valid_after].
  do 3 (split; [reflexivity || exact Hdata|]).
  intros Hsha.
  apply (chain_ok_hash_mismatch _ _ 1 (set_data Demo.alice_to_bob_999 b1) (le_n 1)).
  - reflexivity.
  - destruct (constructed_lookup c2 Hc2 1 b1) as (_ & _ & Hh);
      [rewrite Hchain; reflexivity|].
    apply (forged_hash_mismatch b1 (set_data Demo.alice_to_bob_999 b1) Hh eq_refl);
      [|exact Hsha].
    intros Heq. apply block_string_set_data in Heq. rewrite Hdata in Heq.
    exact (dumps_changed_amount Heq).
Qed.

Lemma main_prints_true_then_false_witness :
  Script.main 2 Demo.t0 Demo.t1 Demo.t2
  = Script.Finished (Script.mkReport (chain Demo.chain2) true false)
  /\ exists g b1 b2 : Block,
       chain Demo.chain2 = [g; b1; b2] /\ data b1 = Demo.alice_to_bob.
Proof.
  assert (Hrun : Script.main 2 Demo.t0 Demo.t1 Demo.t2
                 = Script.Finished (Script.mkReport (chain Demo.chain2) true false))
    by (vm_compute; reflexivity).
  split; [exact Hrun|].
  pose proof (main_prints_true_then_false 2 Demo.t0 Demo.t1 Demo.t2) as H.
  rewrite Hrun in H. destruct H as (g & b1 & b2 & Hl & Hd & _).
  exists g, b1, b2. split; assumption.
Defined.

(** ** The bytes that are hashed *)

Lemma all_chars_app (p : ascii -> bool) (a b : string) :
  all_chars p (a ++ b) = all_chars p a && all_chars p b.
Proof.
  induction a as [|c a IH]; cbn [String.append all_chars]; [reflexivity|].
  rewrite IH, andb_assoc. reflexivity.
Qed.

Lemma escape_char_ascii (c : ascii) : all_chars is_ascii7 (escape_char c) = true.
Proof. destruct c as [[] [] [] [] [] [] [] []]; reflexivity. Qed.

Lemma escape_ascii (s : string) : all_chars is_ascii7 (escape s) = true.
Proof.
  induction s as [|c s IH]; cbn [escape]; [reflexivity|].
  rewrite all_chars_app, escape_char_ascii, IH. reflexivity.
Qed.

Lemma encode_basestring_ascii_ascii (s : string) :
  all_chars is_ascii7 (encode_basestring_ascii s) = true.
Proof.
  unfold encode_basestring_ascii. rewrite !all_chars_app, escape_ascii. reflexivity.
Qed.

Lemma string_of_uint_ascii (d : Decimal.uint) :
  all_chars is_ascii7 (NilEmpty.string_of_uint d) = true.
Proof. induction d; cbn [NilEmpty.string_of_uint all_chars]; try rewrite IHd; reflexivity. Qed.

Lemma int_repr_ascii (z : Z) : all_chars is_ascii7 (int_repr z) = true.
Proof.
  unfold int_repr, NilZero.string_of_int, NilZero.string_of_uint.
  destruct (Z.to_int z) as [d|d]; destruct d; cbn [all_chars];
    try rewrite string_of_uint_ascii; reflexivity.
Qed.

Lemma concat_ascii (sep : string) (l : list string) :
  all_chars is_ascii7 sep = true ->
  Forall (fun s => all_chars is_ascii7 s = true) l ->
  all_chars is_ascii7 (String.concat sep l) = true.
Proof.
  intros Hsep. induction 1 as [|s l Hs Hl IH]; [reflexivity|].
  cbn [String.concat]. destruct l as [|s' l]; [exact Hs|].
  rewrite !all_chars_app, Hs, Hsep, IH. reflexivity.
Qed.

Lemma ascii_floats_list (l : list json) :
  ascii_floats (JList l) <-> Forall ascii_floats l.
Proof.
  cbn [ascii_floats]. induction l as [|x l IH]; cbn [fold_right].
  - split; [constructor|trivial].
  - rewrite Forall_cons, IH. reflexivity.
Qed.

Lemma ascii_floats_dict (items : list (string * json)) :
  ascii_floats (JDict items) <-> Forall (fun kv => ascii_floats kv.2) items.
Proof.
  cbn [ascii_floats]. induction items as [|x l IH]; cbn [fold_right].
  - split; [constructor|trivial].
  - rewrite Forall_cons, IH. reflexivity.
Qed.

(** With [ensure_ascii] left at its default, [json.dumps] writes ASCII
    only, whatever the strings and the keys hold. *)
Lemma dumps_ascii : forall v : json,
    ascii_floats v -> all_chars is_ascii7 (dumps v) = true.
Proof.
  fix IH 1. intros v Hv.
  destruct v as [|[]|z|f|s|l|items]; cbn [dumps]; try reflexivity.
  - apply int_repr_ascii.
  - exact Hv.
  - apply encode_basestring_ascii_ascii.
  - rewrite !all_chars_app.
    apply andb_true_iff; split; [reflexivity|].
    apply andb_true_iff; split; [|reflexivity].
    apply concat_ascii; [reflexivity|].
    apply ascii_floats_list in Hv. revert Hv. generalize l. clear l.
    fix IHl 1. intros l Hv.
    destruct l as [|x l]; cbn [map]; [constructor|].
    apply Forall_cons in Hv. destruct Hv as [Hx Hl]. constructor.
    + apply IH. exact Hx.
    + apply IHl. exact Hl.
  - rewrite !all_chars_app.
    apply andb_true_iff; split; [reflexivity|].
    apply andb_true_iff; split; [|reflexivity].
    apply concat_ascii; [reflexivity|].
    apply Forall_map.
    rewrite (sorted_perm (map (fun kv : string * json => (kv.1, dumps kv.2)) items)).
    apply ascii_floats_dict in Hv. revert Hv. generalize items. clear items.
    fix IHl 1. intros items Hv.
    destruct items as [|x l]; cbn [map]; [constructor|].
    apply Forall_cons in Hv. destruct Hv as [Hx Hl]. constructor.
    + unfold dumps_item. cbn [fst snd].
      rewrite !all_chars_app, encode_basestring_ascii_ascii, (IH _ Hx). reflexivity.
    + apply IHl. exact Hl.
Qed.

Lemma encode_ascii (s : string) :
  all_chars is_ascii7 s = true ->
  encode s = map (fun c : ascii => Z.of_nat (nat_of_ascii c)) (list_ascii_of_string s).
Proof.
  induction s as [|c s IH]; cbn [all_chars encode list_ascii_of_string map];
    [reflexivity|].
  intros H. apply andb_true_iff in H. destruct H as [Hc Hs].
  rewrite (IH Hs). unfold utf8_char. unfold is_ascii7 in Hc. rewrite Hc. reflexivity.
Qed.

(** X17. For the strings this development covers, those of code points
    below 256, the bytes [compute_hash] hashes are ASCII, one for each
    character of the JSON text: the characters from 128 to 255 in the
    payload, its keys or the previous hash have been escaped by
    [json.dumps]. *)
Theorem block_string_ascii (b : Block) :
  ascii_floats (data b) ->
  all_chars is_ascii7 (float_text (timestamp b)) = true ->
  Forall (fun byte : Z => 0 <= byte < 128) (block_string b)
  /\ length (block_string b) = String.length (dumps (block_dict b)).
Proof.
  intros Hd Ht.
  assert (Hascii : all_chars is_ascii7 (dumps (block_dict b)) = true).
  { apply dumps_ascii. cbn. tauto. }
  unfold block_string. rewrite (encode_ascii _ Hascii).
  generalize (dumps (block_dict b)) Hascii. clear.
  induction s as [|c s IH]; cbn [all_chars list_ascii_of_string map String.length length];
    intros H.
  - split; [constructor|reflexivity].
  - apply andb_true_iff in H. destruct H as [Hc Hs]. destruct (IH Hs) as [IHf IHl].
    split; [|rewrite IHl; reflexivity].
    constructor; [|exact IHf]. unfold is_ascii7 in Hc. lia.
Qed.

Lemma block_string_ascii_witness :
  ascii_floats (data Demo.block1)
  /\ Forall (fun byte : Z => 0 <= byte < 128) (block_string Demo.block1)
  /\ length (block_string Demo.block1) = 192%nat.
Proof.
  assert (Hd : ascii_floats (data Demo.block1)) by (cbn; tauto).
  split; [exact Hd|].
  destruct (block_string_ascii Demo.block1 Hd eq_refl) as [Hf Hl].
  split; [exact Hf|]. rewrite Hl. vm_compute. reflexivity.
Defined.

(** ** Blocks taken out or moved *)

Lemma lookup_after (pre : list Block) (a b : Block) (post : list Block) :
  (pre ++ a :: b :: post)%list !! S (length pre) = Some b.
Proof.
  rewrite lookup_app_r by lia.
  replace (S (length pre) - length pre)%nat with 1%nat by lia. reflexivity.
Qed.

Lemma lookup_after2 (pre : list Block) (a b c : Block) (post : list Block) :
  (pre ++ a :: b :: c :: post)%list !! S (S (length pre)) = Some c.
Proof.
  rewrite lookup_app_r by lia.
  replace (S (S (length pre)) - length pre)%nat with 2%nat by lia. reflexivity.
Qed.

(** X18. On a chain [is_valid] accepts, taking out a block that has a block
    before it and a block after it makes [is_valid] return [False], as
    long as the block taken out and the one before it store different
    hashes: the block after it still points to the one taken out. *)
Theorem is_valid_detects_deletion (d : Z) (pre : list Block) (a b c : Block)
        (post : list Block) :
  is_valid (mkBlockchain (pre ++ a :: b :: c :: post)%list d) = Ret true ->
  hash a <> hash b ->
  is_valid (mkBlockchain (pre ++ a :: c :: post)%list d) = Ret false.
Proof.
  intros Hvalid Hab.
  destruct (is_valid_true_checks _ (S (S (length pre))) c b Hvalid) as (_ & Hlink & _).
  - lia.
  - apply lookup_after2.
  - replace (S (S (length pre)) - 1)%nat with (S (length pre)) by lia.
    apply lookup_after.
  - apply (is_valid_false_at (mkBlockchain (pre ++ a :: c :: post)%list d)
             (S (length pre)) c a).
    + lia.
    + apply lookup_after.
    + replace (S (length pre) - 1)%nat with (length pre) by lia.
      apply lookup_middle.
    + right. congruence.
Qed.

Lemma is_valid_detects_deletion_witness :
  is_valid (mkBlockchain ([] ++ Demo.genesis :: Demo.block1 :: Demo.block2 :: [])%list 4)
  = Ret true
  /\ hash Demo.genesis <> hash Demo.block1
  /\ is_valid (mkBlockchain ([] ++ Demo.genesis :: Demo.block2 :: [])%list 4) = Ret false.
Proof.
  assert (Hvalid : is_valid (mkBlockchain
                     ([] ++ Demo.genesis :: Demo.block1 :: Demo.block2 :: [])%list 4)
                   = Ret true) by (vm_compute; reflexivity).
  assert (Hne : hash Demo.genesis <> hash Demo.block1) by discriminate.
  split; [exact Hvalid|]. split; [exact Hne|].
  exact (is_valid_detects_deletion 4 [] _ _ _ [] Hvalid Hne).
Defined.

(** X19. On a chain [is_valid] accepts, exchanging two neighbouring blocks
    that have a block before them makes [is_valid] return [False], as
    long as the first of the two and the block before it store different
    hashes. *)
Theorem is_valid_detects_swap (d : Z) (pre : list Block) (a b c : Block)
        (post : list Block) :
  is_valid (mkBlockchain (pre ++ a :: b :: c :: post)%list d) = Ret true ->
  hash a <> hash b ->
  is_valid (mkBlockchain (pre ++ a :: c :: b :: post)%list d) = Ret false.
Proof.
  intros Hvalid Hab.
  destruct (is_valid_true_checks _ (S (S (length pre))) c b Hvalid) as (_ & Hlink & _).
  - lia.
  - apply lookup_after2.
  - replace (S (S (length pre)) - 1)%nat with (S (length pre)) by lia.
    apply lookup_after.
  - apply (is_valid_false_at (mkBlockchain (pre ++ a :: c :: b :: post)%list d)
             (S (length pre)) c a).
    + lia.
    + apply lookup_after.
    + replace (S (length pre) - 1)%nat with (length pre) by lia.
      apply lookup_middle.
    + right. congruence.
Qed.

Lemma is_valid_detects_swap_witness :
  is_valid (mkBlockchain ([] ++ Demo.genesis :: Demo.block1 :: Demo.block2 :: [])%list 4)
  = Ret true
  /\ hash Demo.genesis <> hash Demo.block1
  /\ is_valid (mkBlockchain ([] ++ Demo.genesis :: Demo.block2 :: Demo.block1 :: [])%list 4)
     = Ret false.
Proof.
  assert (Hvalid : is_valid (mkBlockchain
                     ([] ++ Demo.genesis :: Demo.block1 :: Demo.block2 :: [])%list 4)
                   = Ret true) by (vm_compute; reflexivity).
  assert (Hne : hash Demo.genesis <> hash Demo.block1) by discriminate.
  split; [exact Hvalid|]. split; [exact Hne|].
  exact (is_valid_detects_swap 4 [] _ _ _ [] Hvalid Hne).
Defined.

(** ** When mining ends *)

Lemma pow_loop_finds (prefix : string) (k : nat) :
  forall (fuel : nat) (b : Block),
    (k <= fuel)%nat ->
    startswith (hash (Nat.iter k pow_step b)) prefix = true ->
    exists (n : nat),
      (n <= k)%nat
      /\ pow_loop fuel prefix b
         = Ret (Nat.iter n pow_step b, hash (Nat.iter n pow_step b)).
Proof.
  induction k as [|k IH]; intros fuel b Hle Hk.
  - exists 0%nat. split; [lia|]. apply pow_loop_hit. exact Hk.
  - destruct (startswith (hash b) prefix) eqn:Hsw.
    + exists 0%nat. split; [lia|]. apply pow_loop_hit. exact Hsw.
    + destruct fuel as [|fuel]; [lia|].
      rewrite pow_loop_miss by exact Hsw.
      rewrite Nat.iter_succ_r in Hk.
      destruct (IH fuel (pow_step b)) as (n & Hn & Hrun); [lia|exact Hk|].
      exists (S n). split; [lia|]. rewrite Nat.iter_succ_r. exact Hrun.
Qed.

(** X20. Mining ends as soon as there is a nonce to find: if the block has a
    hash with the prefix at some nonce [k] steps above the one it has,
    [proof_of_work] returns within [k] turns of its loop, at that nonce or
    at a lower one. *)
Theorem proof_of_work_ends_when_nonce_exists (fuel : nat) (self : Blockchain)
        (b : Block) (k : Z) :
  1 <= k <= Z.of_nat fuel ->
  startswith (compute_hash (set_nonce (nonce b + k) b)) (str_mul "0" (difficulty self))
  = true ->
  exists (b' : Block) (h : string),
    proof_of_work fuel self b = Ret (b', h)
    /\ nonce b <= nonce b' <= nonce b + k.
Proof.
  intros Hk Hsw.
  destruct (pow_loop_finds (str_mul "0" (difficulty self)) (Z.to_nat k) fuel b)
    as (n & Hn & Hrun); [lia| |].
  - rewrite pow_steps_nonce_hash by lia.
    replace (Z.of_nat (Z.to_nat k)) with k by lia. exact Hsw.
  - exists (Nat.iter n pow_step b), (hash (Nat.iter n pow_step b)).
    split; [exact Hrun|].
    destruct (pow_steps_frame n b) as (_ & _ & _ & _ & Hnonce). lia.
Qed.

Lemma proof_of_work_ends_when_nonce_exists_witness :
  startswith (compute_hash (set_nonce (nonce Demo.candidate1 + 2) Demo.candidate1))
             (str_mul "0" (difficulty Demo.chain0)) = true
  /\ exists (b' : Block) (h : string),
       proof_of_work 5 Demo.chain0 Demo.candidate1 = Ret (b', h)
       /\ nonce Demo.candidate1 <= nonce b' <= nonce Demo.candidate1 + 2.
Proof.
  assert (Hsw : startswith
                  (compute_hash (set_nonce (nonce Demo.candidate1 + 2) Demo.candidate1))
                  (str_mul "0" (difficulty Demo.chain0)) = true)
    by (vm_compute; reflexivity).
  split; [exact Hsw|].
  apply (proof_of_work_ends_when_nonce_exists 5 Demo.chain0 Demo.candidate1 2);
    [cbn; lia|exact Hsw].
Defined.

(** ** Why tamper detection needs a proviso *)

(** A search below a bound finds what it looks for or shows there is
    none. *)
Lemma bounded_search (f : Z -> Z) (v : Z) (k : Z) :
  0 <= k ->
  (exists i : Z, 0 <= i < k /\ f i = v) \/ (forall i : Z, 0 <= i < k -> f i <> v).
Proof.
  revert k. apply (natlike_ind (fun k =>
    (exists i : Z, 0 <= i < k /\ f i = v) \/ (forall i : Z, 0 <= i < k -> f i <> v))).
  - right. intros i Hi. lia.
  - intros k Hk [(i & Hi & Hf)|Hnone].
    + left. exists i. split; [lia|exact Hf].
    + destruct (Z.eq_dec (f k) v) as [Heq|Hne].
      * left. exists k. split; [lia|exact Heq].
      * right. intros i Hi. destruct (Z.eq_dec i k) as [->|Hik]; [exact Hne|].
        apply Hnone. lia.
Qed.

(** The pigeonhole principle on intervals of integers: [m + 1] values
    below [m] are not all different. *)
Lemma pigeonhole (m : Z) :
  0 <= m ->
  forall f : Z -> Z,
    (forall i : Z, 0 <= i <= m -> 0 <= f i < m) ->
    exists i j : Z, 0 <= i < j /\ j <= m /\ f i = f j.
Proof.
  revert m. apply (natlike_ind (fun m =>
    forall f : Z -> Z,
      (forall i : Z, 0 <= i <= m -> 0 <= f i < m) ->
      exists i j : Z, 0 <= i < j /\ j <= m /\ f i = f j)).
  - intros f Hf. specialize (Hf 0). lia.
  - intros m Hm IH f Hf.
    destruct (bounded_search f (f (Z.succ m)) (Z.succ m)) as [(i & Hi & Heq)|Hnone];
      [lia| |].
    + exists i, (Z.succ m). split; [lia|]. split; [lia|exact Heq].
    + set (v := f (Z.succ m)) in *.
      assert (Hv : 0 <= v < Z.succ m) by (apply Hf; lia).
      destruct (IH (fun i => if f i <? v then f i else f i - 1)) as (i & j & Hij & Hj & Heq).
      * intros i Hi. cbv beta.
        pose proof (Hf i ltac:(lia)) as Hfi.
        pose proof (Hnone i ltac:(lia)) as Hne.
        destruct (Z.ltb_spec (f i) v); lia.
      * exists i, j. split; [lia|]. split; [lia|].
        cbv beta in Heq.
        pose proof (Hnone i ltac:(lia)) as Hni.
        pose proof (Hnone j ltac:(lia)) as Hnj.
        destruct (Z.ltb_spec (f i) v); destruct (Z.ltb_spec (f j) v); lia.
Qed.

Lemma hex_val_bound (c : ascii) : is_hex_digit c = true -> 0 <= hex_val c < 16.
Proof.
  unfold is_hex_digit, hex_val. set (n := Z.of_nat (nat_of_ascii c)).
  intros H. apply orb_true_iff in H. rewrite !andb_true_iff, !Z.leb_le in H.
  destruct (Z.ltb_spec n 58); lia.
Qed.

Lemma hex_val_inj (c c' : ascii) :
  is_hex_digit c = true -> is_hex_digit c' = true ->
  hex_val c = hex_val c' -> c = c'.
Proof.
  unfold is_hex_digit, hex_val. intros H H' Heq.
  apply orb_true_iff in H. rewrite !andb_true_iff, !Z.leb_le in H.
  apply orb_true_iff in H'. rewrite !andb_true_iff, !Z.leb_le in H'.
  assert (Hn : nat_of_ascii c = nat_of_ascii c').
  { destruct (Z.ltb_spec (Z.of_nat (nat_of_ascii c)) 58);
      destruct (Z.ltb_spec (Z.of_nat (nat_of_ascii c')) 58); lia. }
  rewrite <- (ascii_nat_embedding c), <- (ascii_nat_embedding c'), Hn. reflexivity.
Qed.

Lemma hex_value_bound (s : string) :
  all_chars is_hex_digit s = true ->
  0 <= hex_value s < 16 ^ Z.of_nat (String.length s).
Proof.
  induction s as [|c s IH]; cbn [all_chars hex_value String.length]; intros H.
  - cbn. lia.
  - apply andb_true_iff in H. destruct H as [Hc Hs].
    specialize (IH Hs). pose proof (hex_val_bound c Hc) as Hb.
    rewrite Nat2Z.inj_succ, Z.pow_succ_r by lia.
    set (P := 16 ^ Z.of_nat (String.length s)) in *. nia.
Qed.

Lemma hex_value_inj (s : string) :
  forall t : string,
    all_chars is_hex_digit s = true -> all_chars is_hex_digit t = true ->
    String.length s = String.length t ->
    hex_value s = hex_value t -> s = t.
Proof.
  induction s as [|c s IH]; intros [|c' t] Hs Ht Hlen Heq;
    cbn [String.length] in Hlen; try discriminate; [reflexivity|].
  cbn [all_chars hex_value] in *.
  apply andb_true_iff in Hs. destruct Hs as [Hc Hs].
  apply andb_true_iff in Ht. destruct Ht as [Hc' Ht].
  injection Hlen as Hlen. rewrite <- Hlen in Heq.
  pose proof (hex_value_bound s Hs) as Hbs.
  pose proof (hex_value_bound t Ht) as Hbt. rewrite <- Hlen in Hbt.
  set (P := 16 ^ Z.of_nat (String.length s)) in *.
  assert (Hq : hex_val c = hex_val c' /\ hex_value s = hex_value t).
  { apply (Z.div_mod_unique P); [left; lia|left; lia|lia]. }
  destruct Hq as [Hq Hr].
  f_equal; [exact (hex_val_inj c c' Hc Hc' Hq)|exact (IH t Hs Ht Hlen Hr)].
Qed.

(** Among the payloads [0 .. 16 ^ 64] two give the same hash. *)
Lemma numbered_block_collision :
  exists n m : Z,
    0 <= n < m /\ m <= 16 ^ 64
    /\ compute_hash (numbered_block n) = compute_hash (numbered_block m).
Proof.
  destruct (pigeonhole (16 ^ 64) ltac:(lia)
              (fun n => hex_value (compute_hash (numbered_block n))))
    as (n & m & Hnm & Hm & Heq).
  - intros i _. cbv beta.
    destruct (hexdigest_shape (block_string (numbered_block i))) as [Hlen Hhex].
    fold (compute_hash (numbered_block i)) in Hlen, Hhex.
    pose proof (hex_value_bound _ Hhex) as Hb. rewrite Hlen in Hb. exact Hb.
  - exists n, m. split; [exact Hnm|]. split; [exact Hm|].
    cbv beta in Heq.
    destruct (hexdigest_shape (block_string (numbered_block n))) as [Hln Hhn].
    destruct (hexdigest_shape (block_string (numbered_block m))) as [Hlm Hhm].
    apply hex_value_inj; unfold compute_hash; try assumption. congruence.
Qed.

Lemma numbered_chain_valid (n : Z) : is_valid (numbered_chain n) = Ret true.
Proof.
  rewrite is_valid_chain_ok. f_equal. unfold numbered_chain.
  cbn [chain difficulty chain_ok links_ok]. rewrite andb_true_r.
  apply block_checks_true. split; [apply Block_init_hash|].
  split; [reflexivity|apply startswith_empty].
Qed.

(** Two payloads with the same hash: the chain valid for the one stays
    valid when the other is put in its place. *)
Lemma numbered_chain_tampered_valid (n m : Z) :
  compute_hash (numbered_block n) = compute_hash (numbered_block m) ->
  is_valid (set_chain (<[1%nat := set_data (JInt m) (numbered_block n)]>
                         (chain (numbered_chain n))) (numbered_chain n))
  = Ret true.
Proof.
  intros Hsame. rewrite is_valid_chain_ok. f_equal. unfold numbered_chain.
  cbn [set_chain chain difficulty list_insert chain_ok links_ok].
  change (<[1%nat := set_data (JInt m) (numbered_block n)]>
            [Demo.genesis; numbered_block n])
    with [Demo.genesis; set_data (JInt m) (numbered_block n)].
  cbn [chain_ok links_ok]. rewrite andb_true_r.
  apply block_checks_true. split; [|split; [reflexivity|apply startswith_empty]].
  change (hash (set_data (JInt m) (numbered_block n))) with (hash (numbered_block n)).
  transitivity (compute_hash (numbered_block n)); [apply Block_init_hash|].
  rewrite Hsame. apply compute_hash_fields; reflexivity.
Qed.

(** C2 as the claim words it, with no word on collisions, does not hold:
    there are two integers, not above [16 ^ 64], such that the chain built
    with the first as payload of block 1 is valid and is still valid
    after the payload is changed to the second, which [json.dumps] writes
    differently.  So the claim for every chain, every block and every
    payload is false. *)
Lemma payload_tamper_undetected_counterexample :
  (exists n m : Z,
      0 <= n < m /\ m <= 16 ^ 64
      /\ is_valid (numbered_chain n) = Ret true
      /\ chain (numbered_chain n) !! 1%nat = Some (numbered_block n)
      /\ dumps (JInt m) <> dumps (data (numbered_block n))
      /\ is_valid (set_chain (<[1%nat := set_data (JInt m) (numbered_block n)]>
                                (chain (numbered_chain n))) (numbered_chain n))
         = Ret true)
  /\ ~ (forall (self : Blockchain) (i : nat) (current : Block) (payload : json),
          is_valid self = Ret true ->
          (1 <= i)%nat ->
          chain self !! i = Some current ->
          dumps payload <> dumps (data current) ->
          is_valid (set_chain (<[i := set_data payload current]> (chain self)) self)
          = Ret false).
Proof.
  assert (Hex : exists n m : Z,
             0 <= n < m /\ m <= 16 ^ 64
             /\ is_valid (numbered_chain n) = Ret true
             /\ chain (numbered_chain n) !! 1%nat = Some (numbered_block n)
             /\ dumps (JInt m) <> dumps (data (numbered_block n))
             /\ is_valid (set_chain (<[1%nat := set_data (JInt m) (numbered_block n)]>
                                       (chain (numbered_chain n))) (numbered_chain n))
                = Ret true).
  { destruct numbered_block_collision as (n & m & Hnm & Hm & Hsame).
    exists n, m. split; [exact Hnm|]. split; [exact Hm|].
    split; [apply numbered_chain_valid|]. split; [reflexivity|].
    split; [|exact (numbered_chain_tampered_valid n m Hsame)].
    change (data (numbered_block n)) with (JInt n). cbn [dumps].
    intros Heq. apply int_repr_inj in Heq. lia. }
  split; [exact Hex|].
  intros Hclaim. destruct Hex as (n & m & _ & _ & Hvalid & Hcur & Hdumps & Hstill).
  pose proof (Hclaim (numbered_chain n) 1%nat (numbered_block n) (JInt m)
                Hvalid (le_n 1) Hcur Hdumps) as Hfalse.
  rewrite Hstill in Hfalse. discriminate Hfalse.
Qed.
